(** * Bài Tấn (8-card variant): the rules engine of [src/App.jsx]

    A shallow embedding of the engine functions of the single React
    component ([makeDeck], [shuffle], [rankValue], [cardString],
    [findFirstAttacker], [newGame], [drawToFill], [canBeat], [playAttack],
    [playDefend], [addAttack], [defenderTakes], [checkForFinish], [log]) and
    of the click handler of its card buttons ([handleClick]), and the
    properties the specification states about them.

    Conventions of the embedding.
    - A JS array is a [list] in array order: index 0 is the head,
      [push] appends at the end, [pop] removes the last element,
      [unshift] conses at the front, [splice(i, 1)] is [delete i].
    - The React state [game] is a [GameState]; a handler is a function from
      the current [game] to an [outcome] that says whether [setGame] was
      called and with what.  [structuredClone] is the identity on values.
    - The lines the handlers write to the activity log are presentation
      only and are not modelled. *)

From stdpp Require Import base decidable option numbers list strings pretty.
From Stdlib Require Import Permutation.

Local Open Scope string_scope.
Local Open Scope nat_scope.
Local Open Scope list_scope.

(** ** Cards *)

Inductive suit := Clubs | Diamonds | Hearts | Spades.
Inductive rank := R6 | R7 | R8 | R9 | R10 | RJ | RQ | RK | RA.

#[global] Instance suit_eq_dec : EqDecision suit.
Proof. solve_decision. Defined.
#[global] Instance rank_eq_dec : EqDecision rank.
Proof. solve_decision. Defined.

(** const SUITS = ["♣", "♦", "♥", "♠"];
    const RANKS = ["6", "7", "8", "9", "10", "J", "Q", "K", "A"]; *)
Definition SUITS : list suit := [Clubs; Diamonds; Hearts; Spades].
Definition RANKS : list rank := [R6; R7; R8; R9; R10; RJ; RQ; RK; RA].

Definition suitStr (s : suit) : string :=
  match s with
  | Clubs => "♣" | Diamonds => "♦" | Hearts => "♥" | Spades => "♠"
  end.

Definition rankStr (r : rank) : string :=
  match r with
  | R6 => "6" | R7 => "7" | R8 => "8" | R9 => "9" | R10 => "10"
  | RJ => "J" | RQ => "Q" | RK => "K" | RA => "A"
  end.

(** A card object [{ suit, rank, id }].  The [id] field is always built as
    [`${r}${s}`] from the other two, so it is a function of them here. *)
Record card := Card { c_suit : suit; c_rank : rank }.

#[global] Instance card_eq_dec : EqDecision card.
Proof. solve_decision. Defined.

Definition cardString (c : card) : string := rankStr (c_rank c) +:+ suitStr (c_suit c).
Definition c_id (c : card) : string := rankStr (c_rank c) +:+ suitStr (c_suit c).

(** [c.id === card.id] *)
Definition sameId (card c : card) : bool := bool_decide (c_id c = c_id card).

(** function makeDeck(): suits outermost, ranks innermost. *)
Definition makeDeck : list card :=
  flat_map (fun s => map (fun r => Card s r) RANKS) SUITS.

(** [arr.indexOf(x)]: first index holding [x], or -1. *)
Definition indexOf {A} `{EqDecision A} (x : A) (arr : list A) : Z :=
  match list_find (fun y => y = x) arr with
  | Some (i, _) => Z.of_nat i
  | None => (-1)%Z
  end.

Definition rankValue (r : rank) : Z := indexOf r RANKS.

(** ** The beat rule

    [defendCard] may be [null] in the source; [None] stands for it. *)
Definition canBeat (attackCard : card) (defendCard : option card) (trump : suit) : bool :=
  match defendCard with
  | None => false
  | Some d =>
      if bool_decide (c_suit attackCard = c_suit d)
      then bool_decide (rankValue (c_rank d) > rankValue (c_rank attackCard))%Z
      else bool_decide (c_suit d = trump)
  end.

(** ** Players, table and game state *)

Record player := Player { p_id : nat; p_name : string; hand : list card }.

(** A table entry [{ attack: card, defend: card|null, by: playerIndex }]. *)
Record pair := Pair { attack : card; defend : option card; by_ : nat }.

(** 'attack' | 'defend' | 'cleanup' | 'finished' *)
Inductive phase := PAttack | PDefend | PCleanup | PFinished.

#[global] Instance phase_eq_dec : EqDecision phase.
Proof. solve_decision. Defined.

Record GameState := Game {
  players : list player;
  deck : list card;
  trump : suit;
  table : list pair;
  attacker : nat;
  defender : nat;
  phase_ : phase;
  maxAdds : Z
}.

(** What a handler does with the React state: [setGame(s)], a plain
    [return], an [alert(...)] followed by [return], or an uncaught
    [TypeError] from reading a property of [undefined].  Only [SetGame]
    replaces the state. *)
Inductive outcome :=
| SetGame (s : GameState)
| Ignored
| Alerted (msg : string)
| Thrown.

Definition nextGame (game : GameState) (o : outcome) : GameState :=
  match o with SetGame s => s | _ => game end.

(** ** Array helpers *)

(** [arr.pop()]: the last element and the shortened array. *)
Definition pop {A} (arr : list A) : option (A * list A) :=
  match reverse arr with
  | [] => None
  | x :: r => Some (x, reverse r)
  end.

(** [arr.findIndex(f)]; [None] stands for -1. *)
Definition findIndex {A} (f : A → bool) (arr : list A) : option nat :=
  fst <$> list_find (fun x => f x = true) arr.

(** [[a[i], a[j]] = [a[j], a[i]]] for in-range [i], [j]. *)
Definition swap {A} (a : list A) (i j : nat) : list A :=
  match a !! i, a !! j with
  | Some x, Some y => <[j := x]> (<[i := y]> a)
  | _, _ => a
  end.

(** [arr.sort(cmp)]: a stable sort by a numeric comparator. *)
Fixpoint insertBy {A} (cmp : A → A → Z) (x : A) (l : list A) : list A :=
  match l with
  | [] => [x]
  | y :: l' => if (cmp x y <=? 0)%Z then x :: y :: l' else y :: insertBy cmp x l'
  end.

Definition sortBy {A} (cmp : A → A → Z) (l : list A) : list A :=
  foldr (insertBy cmp) [] l.

Definition withHand (f : list card → list card) (p : player) : player :=
  Player (p_id p) (p_name p) (f (hand p)).

(** ** Shuffle

    [pick i] stands for the value [Math.floor(Math.random() * (i + 1))]
    drawn at loop counter [i]; it is reduced modulo [i + 1], the range of
    that expression. *)
Fixpoint shuffleLoop {A} (pick : nat → nat) (i : nat) (a : list A) : list A :=
  match i with
  | 0 => a
  | S i' => shuffleLoop pick i' (swap a i (pick i mod (i + 1)))
  end.

Definition shuffle {A} (pick : nat → nat) (arr : list A) : list A :=
  shuffleLoop pick (length arr - 1) arr.

(** ** First attacker *)

Definition byRank (a b : card) : Z := (rankValue (c_rank a) - rankValue (c_rank b))%Z.

(** One iteration of the [forEach] body; [best] is [null] or a candidate
    [{ playerIndex, card }]. *)
Definition considerPlayer (trump : suit) (best : option (nat * card))
    (pi : nat) (p : player) : option (nat * card) :=
  let trumps := sortBy byRank (List.filter (fun c => bool_decide (c_suit c = trump)) (hand p)) in
  match trumps with
  | [] => best
  | c0 :: _ =>
      match best with
      | None => Some (pi, c0)
      | Some (_, bc) =>
          if bool_decide (rankValue (c_rank c0) < rankValue (c_rank bc))%Z
          then Some (pi, c0) else best
      end
  end.

Fixpoint forEachPlayer (trump : suit) (pi : nat) (ps : list player)
    (best : option (nat * card)) : option (nat * card) :=
  match ps with
  | [] => best
  | p :: ps' => forEachPlayer trump (S pi) ps' (considerPlayer trump best pi p)
  end.

Definition findFirstAttacker (players : list player) (trump : suit) : nat :=
  match forEachPlayer trump 0 players None with
  | Some (pi, _) => pi
  | None => 0
  end.

(** ** Refill *)

(** The inner [while (p.hand.length < 8 && s.deck.length > 0)] loop on the
    hand of one player and the deck.  Every iteration pops one card, so
    [length deck] iterations of fuel always suffice (see
    [fillLoop_drawUpTo8]). *)
Fixpoint fillLoop (fuel : nat) (hand deck : list card) : list card * list card :=
  match fuel with
  | 0 => (hand, deck)
  | S fuel' =>
      if (length hand <? 8) && (0 <? length deck) then
        match pop deck with
        | Some (c, deck') => fillLoop fuel' (hand ++ [c]) deck'
        | None => (hand, deck)
        end
      else (hand, deck)
  end.

(** One iteration of the [for (offset ...)] loop.  [pIndex] is a remainder
    modulo [players.length], so [players[pIndex]] always exists. *)
Definition drawFor (attacker : nat) (st : list player * list card) (offset : nat)
    : list player * list card :=
  let pIndex := (attacker + offset) mod length st.1 in
  match st.1 !! pIndex with
  | None => st
  | Some p =>
      let '(h, d) := fillLoop (length st.2) (hand p) st.2 in
      (<[pIndex := withHand (fun _ => h) p]> st.1, d)
  end.

Definition drawToFill (state : GameState) : GameState :=
  let '(ps, d) :=
    foldl (drawFor (attacker state)) (players state, deck state)
          (seq 0 (length (players state))) in
  Game ps d (trump state) (table state) (attacker state) (defender state)
       (phase_ state) (maxAdds state).

(** ** Termination check *)

Definition setPhase (ph : phase) (s : GameState) : GameState :=
  Game (players s) (deck s) (trump s) (table s) (attacker s) (defender s) ph (maxAdds s).

Definition finishedPlayers (s : GameState) : list player :=
  List.filter (fun p => (length (hand p) =? 0) && (length (deck s) =? 0)) (players s).

(** Returns the boolean result together with the (possibly re-phased)
    state that ends up in [setGame]. *)
Definition checkForFinish (s : GameState) : bool * GameState :=
  if 0 <? length (finishedPlayers s) then (true, setPhase PFinished s) else (false, s).

(** ** Actions *)

Definition isDefended (t : pair) : bool :=
  match defend t with Some _ => true | None => false end.

(** [t.defend ? [t.attack, t.defend] : [t.attack]] *)
Definition pairCards (t : pair) : list card :=
  match defend t with
  | Some d => [attack t; d]
  | None => [attack t]
  end.

Definition playAttack (game : GameState) (playerIndex : nat) (card : card) : outcome :=
  if negb (attacker game =? playerIndex) then Ignored else
  (* enforce attack phase: the source has this comment and no test *)
  match players game !! playerIndex with
  | None => Thrown
  | Some pl =>
      match findIndex (sameId card) (hand pl) with
      | None => Ignored
      | Some idx =>
          let players1 := alter (withHand (delete idx)) playerIndex (players game) in
          let table1 := table game ++ [Pair card None playerIndex] in
          match players1 !! defender game with
          | None => Thrown
          | Some dp =>
              SetGame (Game players1 (deck game) (trump game) table1
                            (attacker game) (defender game) PDefend
                            (Z.min (Z.of_nat (length (hand dp)))
                                   (8 - Z.of_nat (length table1))))
          end
      end
  end.

Definition playDefend (game : GameState) (playerIndex attackIndex : nat) (card : card)
    : outcome :=
  if negb (defender game =? playerIndex) then Ignored else
  match table game !! attackIndex with
  | None => Ignored
  | Some attPair =>
      if isDefended attPair then Ignored else
      match players game !! playerIndex with
      | None => Thrown
      | Some pl =>
          match findIndex (sameId card) (hand pl) with
          | None => Ignored
          | Some idx =>
              if negb (canBeat (attack attPair) (Some card) (trump game))
              then Alerted "Cannot beat that card" else
              let players1 := alter (withHand (delete idx)) playerIndex (players game) in
              let table1 :=
                <[attackIndex := Pair (attack attPair) (Some card) (by_ attPair)]> (table game) in
              let allDefended := forallb isDefended table1 in
              if allDefended then
                let s := Game players1 (deck game) (trump game) []
                              (defender game)
                              ((defender game + 1) mod length players1)
                              PCleanup (maxAdds game) in
                let after := setPhase PAttack (drawToFill s) in
                SetGame (checkForFinish after).2
              else
                SetGame (Game players1 (deck game) (trump game) table1
                              (attacker game) (defender game) (phase_ game)
                              (maxAdds game))
          end
      end
  end.

(** [new Set(s.table.flatMap(t => [t.attack.rank, t.defend ? t.defend.rank : null]).filter(Boolean))];
    membership is all the source asks of the set. *)
Definition ranksOnTable (table : list pair) : list rank :=
  omap id (flat_map (fun t => [Some (c_rank (attack t)); c_rank <$> defend t]) table).

Definition addAttack (game : GameState) (byPlayerIndex : nat) (card : card) : outcome :=
  if negb (bool_decide (phase_ game = PDefend)) then Ignored else
  match players game !! byPlayerIndex with
  | None => Thrown
  | Some pl =>
      match findIndex (sameId card) (hand pl) with
      | None => Ignored
      | Some idx =>
          if negb (bool_decide (c_rank card ∈ ranksOnTable (table game)))
          then Alerted "Can only add cards with ranks already on table" else
          if 8 <=? length (table game)
          then Alerted "Max 8 attacks in one round" else
          match players game !! defender game with
          | None => Thrown
          | Some dp =>
              let accept :=
                SetGame (Game (alter (withHand (delete idx)) byPlayerIndex (players game))
                              (deck game) (trump game)
                              (table game ++ [Pair card None byPlayerIndex])
                              (attacker game) (defender game) (phase_ game)
                              (maxAdds game)) in
              (* also can't exceed defender hand size: the body of this
                 [if] is empty in the source *)
              if length (hand dp)
                   + length (List.filter (fun t => negb (isDefended t)) (table game))
                 <=? length (table game)
              then accept
              else accept
          end
      end
  end.

Definition defenderTakes (game : GameState) : outcome :=
  let toTake := flat_map pairCards (table game) in
  match players game !! defender game with
  | None => Thrown
  | Some _ =>
      let players1 := alter (withHand (fun h => h ++ toTake)) (defender game) (players game) in
      let s := Game players1 (deck game) (trump game) []
                    (attacker game)
                    ((attacker game + 1) mod length players1)
                    (phase_ game) (maxAdds game) in
      let after := setPhase PAttack (drawToFill s) in
      SetGame (checkForFinish after).2
  end.

(** ** Deal and setup *)

(** [players[p].hand.push(deck.pop())].  On an empty deck the source pushes
    [undefined] and then fails at [trumpCard.suit], the deck being still
    empty there; [None] stands for that [TypeError]. *)
Definition dealOne (st : option (list player * list card)) (p : nat)
    : option (list player * list card) :=
  '(ps, d) ← st;
  '(c, d') ← pop d;
  Some (alter (withHand (fun h => h ++ [c])) p ps, d').

Definition dealRound (numPlayers : nat) (st : option (list player * list card)) (i : nat)
    : option (list player * list card) :=
  foldl dealOne st (seq 0 numPlayers).

(** The shuffled deck, the fresh players and the "deal 8 to each" loops. *)
Definition dealFrom (deck0 : list card) (numPlayers : nat)
    : option (list player * list card) :=
  let players0 :=
    map (fun i => Player i ("Player " +:+ pretty (i + 1)) []) (seq 0 numPlayers) in
  foldl (dealRound numPlayers) (Some (players0, deck0)) (seq 0 8).

Definition dealHands (pick : nat → nat) (numPlayers : nat)
    : option (list player * list card) :=
  dealFrom (shuffle pick makeDeck) numPlayers.

(** [numPlayers] is 2, 3 or 4 in the component (initially 3); the
    statements below are about these values.  (With no player at all the
    source would compute [NaN] for the defender, which [nat] cannot
    express.) *)
Definition newGame (pick : nat → nat) (numPlayers : nat) : option GameState :=
  '(players1, deck1) ← dealHands pick numPlayers;
  '(trumpCard, deck2) ← pop deck1;
  let trump := c_suit trumpCard in
  let deck3 := trumpCard :: deck2 in
  let first := findFirstAttacker players1 trump in
  Some (Game players1 deck3 trump [] first ((first + 1) mod numPlayers) PAttack 0).

(** ** Runs of the engine *)

Inductive action :=
| Attack (playerIndex : nat) (c : card)
| Defend (playerIndex attackIndex : nat) (c : card)
| AddAttack (byPlayerIndex : nat) (c : card)
| Take.

Definition handle (game : GameState) (a : action) : outcome :=
  match a with
  | Attack p c => playAttack game p c
  | Defend p i c => playDefend game p i c
  | AddAttack p c => addAttack game p c
  | Take => defenderTakes game
  end.

(** ** Card accounting

    The source keeps no discard pile: at [s.table = []] in the resolution
    branch of [playDefend] the cards of the table leave play.  [discarded]
    names those cards so that runs can carry the pile along. *)

Definition allHands (ps : list player) : list card := flat_map hand ps.

Definition tableCards (t : list pair) : list card := flat_map pairCards t.

Definition cardsInPlay (g : GameState) : list card :=
  deck g ++ allHands (players g) ++ tableCards (table g).

Definition discarded (game : GameState) (a : action) : list card :=
  match a with
  | Defend _ attackIndex card =>
      match table game !! attackIndex with
      | Some attPair =>
          let table1 :=
            <[attackIndex := Pair (attack attPair) (Some card) (by_ attPair)]> (table game) in
          if forallb isDefended table1 then tableCards table1 else []
      | None => []
      end
  | _ => []
  end.

(** States of a game with the pile of cards discarded so far: a fresh
    deal for 2, 3 or 4 players and any random source, then any sequence of
    accepted actions. *)
Inductive reachable : GameState → list card → Prop :=
| reach_new pick numPlayers g :
    2 ≤ numPlayers ≤ 4 →
    newGame pick numPlayers = Some g →
    reachable g []
| reach_step g pile a g' :
    reachable g pile →
    handle g a = SetGame g' →
    reachable g' (pile ++ discarded g a).

(** ** Refill as the specification words it

    Each player is visited once, in index order modulo the player count
    starting at the attacker, and takes, one card at a time from the draw
    end of the deck, as many cards as bring the hand to 8 or empty the
    deck. *)

Definition refillOrder (n attacker : nat) : list nat :=
  map (fun offset => (attacker + offset) mod n) (seq 0 n).

Definition drawUpTo8 (hand deck : list card) : list card * list card :=
  let k := (8 - length hand) `min` length deck in
  (hand ++ reverse (drop (length deck - k) deck), take (length deck - k) deck).

Definition refillPlayer (st : list player * list card) (i : nat)
    : list player * list card :=
  match st.1 !! i with
  | None => st
  | Some p =>
      let '(h, d) := drawUpTo8 (hand p) st.2 in
      (<[i := withHand (fun _ => h) p]> st.1, d)
  end.

Definition refillSpec (attacker : nat) (ps : list player) (d : list card)
    : list player * list card :=
  foldl refillPlayer (ps, d) (refillOrder (length ps) attacker).

(** What a refill, or any part of one, may change: hands only grow at
    their end and never past 8 by drawing, the deck only shrinks at its
    draw end, and no card is lost or made. *)
Definition refilled (st st' : list player * list card) : Prop :=
  length st'.1 = length st.1
  ∧ st'.2 `prefix_of` st.2
  ∧ allHands st'.1 ++ st'.2 ≡ₚ allHands st.1 ++ st.2
  ∧ ∀ i p, st.1 !! i = Some p →
      ∃ p', st'.1 !! i = Some p' ∧ p_id p' = p_id p ∧ p_name p' = p_name p
            ∧ hand p `prefix_of` hand p'
            ∧ length (hand p') ≤ 8 `max` length (hand p).

Definition topped (st : list player * list card) (i : nat) : Prop :=
  ∀ p, st.1 !! i = Some p → 8 ≤ length (hand p) ∨ st.2 = [].

(** What the deal, or any part of it, does to the players and the deck
    after [k] cards were handed out. *)
Definition dealt (k : nat) (st st' : list player * list card) : Prop :=
  length st'.1 = length st.1
  ∧ length st.2 = length st'.2 + k
  ∧ st'.2 `prefix_of` st.2
  ∧ allHands st'.1 ++ st'.2 ≡ₚ allHands st.1 ++ st.2.

(** ** Round ends

    [allDefended] as [playDefend] computes it, after the defend card is put
    on the targeted pair; a take always ends the round. *)
Definition resolves (game : GameState) (attackIndex : nat) (card : card) : bool :=
  match table game !! attackIndex with
  | Some attPair =>
      forallb isDefended
        (<[attackIndex := Pair (attack attPair) (Some card) (by_ attPair)]> (table game))
  | None => false
  end.

Definition endsRound (game : GameState) (a : action) : bool :=
  match a with
  | Defend _ attackIndex card => resolves game attackIndex card
  | Take => true
  | _ => false
  end.

(** "At least one player's hand is empty and the deck is empty." *)
Definition someoneOut (s : GameState) : Prop :=
  (∃ p, p ∈ players s ∧ hand p = []) ∧ deck s = [].

(** ** Trumps in hand *)

Definition holdsTrump (trump : suit) (p : player) (c : card) : Prop :=
  c ∈ hand p ∧ c_suit c = trump.

(** [c] is a trump of lowest rank among all the hands of [ps]. *)
Definition lowestTrump (trump : suit) (ps : list player) (c : card) : Prop :=
  ∀ q c', q ∈ ps → holdsTrump trump q c' →
    (rankValue (c_rank c) ≤ rankValue (c_rank c'))%Z.

(** What the [forEach] loop maintains about [best], for the players seen
    so far: it is [null] exactly when none of them holds a trump, and else
    names one of them together with a lowest trump among their hands. *)
Definition bestSoFar (trump : suit) (seen : list player) (best : option (nat * card)) : Prop :=
  match best with
  | None => ∀ q c, q ∈ seen → ¬ holdsTrump trump q c
  | Some (pi, c) =>
      (∃ p, seen !! pi = Some p ∧ holdsTrump trump p c) ∧ lowestTrump trump seen c
  end.

(** ** States that differ at most in [maxAdds] *)

Definition sameButMaxAdds (s1 s2 : GameState) : Prop :=
  players s1 = players s2 ∧ deck s1 = deck s2 ∧ trump s1 = trump s2
  ∧ table s1 = table s2 ∧ attacker s1 = attacker s2 ∧ defender s1 = defender s2
  ∧ phase_ s1 = phase_ s2.

(** The same decision (accepted, ignored, the same alert, the same
    failure) and, when accepted, new states that differ at most in
    [maxAdds]. *)
Definition sameOutcomeButMaxAdds (o1 o2 : outcome) : Prop :=
  match o1, o2 with
  | SetGame s1, SetGame s2 => sameButMaxAdds s1 s2
  | Ignored, Ignored => True
  | Alerted m1, Alerted m2 => m1 = m2
  | Thrown, Thrown => True
  | _, _ => False
  end.

Definition setMaxAdds (m : Z) (s : GameState) : GameState :=
  Game (players s) (deck s) (trump s) (table s) (attacker s) (defender s) (phase_ s) m.

(** ** Undefended pairs and the defender's hand *)

(** [s.table.filter(t => t.defend === null).length] *)
Definition undefended (t : list pair) : nat :=
  length (List.filter (fun t => negb (isDefended t)) t).

(** [s.players[s.defender].hand.length] *)
Definition defenderHandSize (s : GameState) : nat :=
  match players s !! defender s with
  | Some p => length (hand p)
  | None => 0
  end.

(** A run of accepted actions; [None] as soon as one is not accepted. *)
Fixpoint play (g : GameState) (l : list action) : option GameState :=
  match l with
  | [] => Some g
  | a :: l' =>
      match handle g a with
      | SetGame g' => play g' l'
      | _ => None
      end
  end.

(** ** Between rounds

    What holds of a state whose round is over (or has not begun): the
    table is clear, the defender sits right after the attacker, every hand
    was topped up as far as the deck allowed, and the phase is Finished
    exactly when somebody is out, Attack otherwise. *)

Definition handSizes (ps : list player) : list nat := (length ∘ hand) <$> ps.

Definition settled (g : GameState) : Prop :=
  table g = []
  ∧ defender g = (attacker g + 1) mod length (players g)
  ∧ (∀ i, i < length (players g) → topped (players g, deck g) i)
  ∧ (phase_ g = PFinished ↔ someoneOut g)
  ∧ (phase_ g = PAttack ∨ phase_ g = PFinished).

Definition wellPhased (g : GameState) : Prop :=
  0 < length (players g) ∧ (phase_ g = PDefend ∨ settled g).

(** ** The activity log

    [setLogs((L) => [text, ...L].slice(0, 200))] *)
Definition log (text : string) (L : list string) : list string :=
  take 200 (text :: L).

(** ** Clicks

    What the rendered component lets a user do: a button for every card of
    every hand ([CardButton], with [playerIndex] the seat of the hand) and
    a Take button in the seat of the defender. *)
Inductive click :=
| CardClick (me : nat) (c : card)
| TakeClick.

(** The buttons that exist in the rendering of [game]. *)
Definition offered (game : GameState) (k : click) : Prop :=
  match k with
  | CardClick me c => ∃ p, players game !! me = Some p ∧ c ∈ hand p
  | TakeClick => defender game < length (players game)
  end.

(** [handleClick] of [CardButton]. *)
Definition handleClick (game : GameState) (me : nat) (card : card) : outcome :=
  let isAttacker := attacker game =? me in
  let isDefender := defender game =? me in
  if bool_decide (phase_ game = PAttack) && isAttacker then
    playAttack game me card
  else if bool_decide (phase_ game = PDefend) && isDefender then
    (* find first undefended attack *)
    match findIndex (fun t => negb (isDefended t)) (table game) with
    | None => Alerted "No attack to defend"
    | Some attackIndex => playDefend game me attackIndex card
    end
  else if bool_decide (phase_ game = PDefend) && isAttacker then
    (* attacker may add additional attack if rank is present on table *)
    addAttack game me card
  else Ignored.

Definition press (game : GameState) (k : click) : outcome :=
  match k with
  | CardClick me c => handleClick game me c
  | TakeClick => defenderTakes game
  end.

(** States a game reaches through the buttons alone. *)
Inductive played : GameState → Prop :=
| played_new pick numPlayers g :
    2 ≤ numPlayers ≤ 4 →
    newGame pick numPlayers = Some g →
    played g
| played_press g k g' :
    played g →
    offered g k →
    press g k = SetGame g' →
    played g'.

(** ** Seats

    The [id] and [name] of every player, in array order. *)
Definition seats (ps : list player) : list (nat * string) :=
  (fun p => (p_id p, p_name p)) <$> ps.

(** ** Playing a card

    [hand.splice(idx, 1)] at the index [findIndex] answers: the first copy
    of the card leaves the hand of seat [p], the other cards keep their
    order, and no other player changes. *)
Definition spends (ps ps' : list player) (p : nat) (c : card) : Prop :=
  ∃ pl l1 l2,
    ps !! p = Some pl ∧ hand pl = l1 ++ c :: l2 ∧ (c ∉ l1)
    ∧ ps' = <[p := Player (p_id pl) (p_name pl) (l1 ++ l2)]> ps.

(** The card is among the ranks on the table, as attack or as defence. *)
Definition rankOnTable (t : list pair) (r : rank) : Prop :=
  ∃ tp, tp ∈ t ∧ (c_rank (attack tp) = r ∨ ∃ d, defend tp = Some d ∧ c_rank d = r).

(** ** Roles

    2 to 4 players, an attacker that exists, and the defender in the next
    seat. *)
Definition inRoles (g : GameState) : Prop :=
  2 ≤ length (players g) ≤ 4
  ∧ attacker g < length (players g)
  ∧ defender g = (attacker g + 1) mod length (players g).

(** A round is open (phase Defend with a pair still to beat) or the state
    is settled. *)
Definition inRound (g : GameState) : Prop :=
  (phase_ g = PDefend ∧ 0 < undefended (table g)) ∨ settled g.

(** A run of accepted actions together with the pile of discards. *)
Fixpoint playPile (g : GameState) (pile : list card) (l : list action)
    : option (GameState * list card) :=
  match l with
  | [] => Some (g, pile)
  | a :: l' =>
      match handle g a with
      | SetGame g' => playPile g' (pile ++ discarded g a) l'
      | _ => None
      end
  end.

(** A run of clicks on buttons that exist, each one accepted. *)
Definition offeredb (game : GameState) (k : click) : bool :=
  match k with
  | CardClick me c =>
      match players game !! me with
      | Some p => bool_decide (c ∈ hand p)
      | None => false
      end
  | TakeClick => defender game <? length (players game)
  end.

Fixpoint pressAll (g : GameState) (ks : list click) : option GameState :=
  match ks with
  | [] => Some g
  | k :: ks' =>
      if offeredb g k then
        match press g k with
        | SetGame g' => pressAll g' ks'
        | _ => None
        end
      else None
  end.

(** Table rules the buttons keep: at most 8 pairs, all led by the
    attacker. *)
Definition tableInOrder (g : GameState) : Prop :=
  length (table g) ≤ 8 ∧ Forall (fun t => by_ t = attacker g) (table g).

(** ** Cards missing to 8 *)

Definition missing (ps : list player) (i : nat) : nat :=
  match ps !! i with
  | Some p => 8 - length (hand p)
  | None => 0
  end.

Definition need (ps : list player) : nat :=
  sum_list_with (fun p => 8 - length (hand p)) ps.

(** ** Sample runs

    The random source that leaves the deck in [makeDeck] order ([j = i] at
    every step of the shuffle), used for the worked examples. *)
Definition keepOrder (i : nat) : nat := i.

Definition noGame : GameState := Game [] [] Clubs [] 0 0 PAttack 0.

(** Three players, deck in [makeDeck] order: player 3 (index 2) holds the
    lowest trump and attacks player 1 (index 0). *)
Definition deal3 : GameState :=
  Eval vm_compute in default noGame (newGame keepOrder 3).

(** ... the attacker leads the queen of spades ... *)
Definition deal3_attacked : GameState :=
  Eval vm_compute in nextGame deal3 (playAttack deal3 2 (Card Spades RQ)).

(** ... and the defender takes it. *)
Definition deal3_taken : GameState :=
  Eval vm_compute in nextGame deal3_attacked (defenderTakes deal3_attacked).

(** Two players at the end of a game: the deck is gone, the attacker holds
    the seven of clubs and the defender the nine of clubs. *)
Definition lastCards : GameState :=
  Game [Player 0 "Player 1" [Card Clubs R7]; Player 1 "Player 2" [Card Clubs R9]]
       [] Hearts [] 0 1 PAttack 0.

Definition lastCards_attacked : GameState :=
  Eval vm_compute in nextGame lastCards (playAttack lastCards 0 (Card Clubs R7)).

Definition lastCards_defended : GameState :=
  Eval vm_compute in
    nextGame lastCards_attacked (playDefend lastCards_attacked 1 0 (Card Clubs R9)).

(** Four players, deck in [makeDeck] order: player 4 (index 3) attacks
    player 1 (index 0) and leads the seven of spades. *)
Definition deal4 : GameState :=
  Eval vm_compute in default noGame (newGame keepOrder 4).

Definition deal4_attacked : GameState :=
  Eval vm_compute in nextGame deal4 (playAttack deal4 3 (Card Spades R7)).

(** A game of four in which every action is one the buttons of the
    component offer.  The picks shuffle the deck so that player 1 is dealt
    the four sixes and player 2 the four nines, with four cards left to
    draw.  Player 1 leads two sevens, player 2 beats both and both draw the
    deck empty; player 2 leads the four nines, player 3 takes them and then
    beats a ten; a jack and a queen are led and beaten; player 1 then leads
    three sixes at player 2, who is down to three cards. *)
Definition riggedPicks : list nat :=
  [0; 1; 2; 2; 0; 5; 6; 2; 7; 9; 2; 7; 6; 2; 6; 10; 7; 4; 2; 10; 6; 2; 12; 18;
   5; 1; 3; 18; 15; 23; 20; 9; 24; 14; 11; 0].

Definition rigged (i : nat) : nat := default 0 (riggedPicks !! i).

Definition riggedDeal : GameState :=
  Eval vm_compute in default noGame (newGame rigged 4).

Definition riggedMoves : list action :=
  [ Attack 0 (Card Diamonds R7); AddAttack 0 (Card Hearts R7);
    Defend 1 0 (Card Diamonds R8); Defend 1 1 (Card Hearts R8);
    Attack 1 (Card Clubs R9); AddAttack 1 (Card Diamonds R9);
    AddAttack 1 (Card Hearts R9); AddAttack 1 (Card Spades R9);
    Take;
    Attack 1 (Card Diamonds R10); Defend 2 0 (Card Diamonds RJ);
    Attack 2 (Card Hearts RJ); Defend 3 0 (Card Hearts RQ);
    Attack 3 (Card Diamonds RQ); Defend 0 0 (Card Diamonds RK);
    Attack 0 (Card Diamonds R6); AddAttack 0 (Card Hearts R6);
    AddAttack 0 (Card Spades R6) ].

Definition threeSixes : GameState :=
  Eval vm_compute in default noGame (play riggedDeal riggedMoves).

Definition fourSixes : GameState :=
  Eval vm_compute in nextGame threeSixes (addAttack threeSixes 0 (Card Clubs R6)).

(** The first round of [riggedMoves]: two sevens led and beaten. *)
Definition twoSevensBeaten : GameState :=
  Eval vm_compute in default noGame (play riggedDeal (take 4 riggedMoves)).

(** A short game of four on the deal of [riggedPicks], played on the
    buttons: after the first round has emptied the deck, player 2 leads
    the four nines, two tens, the king and the ace of hearts, player 3
    takes each time, and player 2 is out of cards. *)
Definition quickClicks : list click :=
  [ CardClick 0 (Card Diamonds R7); CardClick 0 (Card Hearts R7);
    CardClick 1 (Card Diamonds R8); CardClick 1 (Card Hearts R8);
    CardClick 1 (Card Clubs R9); CardClick 1 (Card Diamonds R9);
    CardClick 1 (Card Hearts R9); CardClick 1 (Card Spades R9);
    TakeClick;
    CardClick 1 (Card Diamonds R10); CardClick 1 (Card Hearts R10);
    TakeClick;
    CardClick 1 (Card Hearts RK); TakeClick;
    CardClick 1 (Card Hearts RA); TakeClick ].

Definition quickGameOver : GameState :=
  Eval vm_compute in default noGame (pressAll riggedDeal quickClicks).

(** * Properties *)

Lemma c_id_inj (c d : card) : c_id c = c_id d → c = d.
Proof.
  destruct c as [[] []], d as [[] []]; vm_compute; intros H;
    first [reflexivity | discriminate H].
Qed.

Lemma sameId_true (cd c : card) : sameId cd c = true ↔ c = cd.
Proof.
  unfold sameId. rewrite bool_decide_eq_true. split.
  - apply c_id_inj.
  - by intros ->.
Qed.

(** [rankValue] orders the nine ranks as [RANKS] lists them. *)
Lemma rankValue_range (r : rank) : (0 ≤ rankValue r ≤ 8)%Z.
Proof. destruct r; vm_compute; split; discriminate. Qed.

Lemma rankValue_inj (r r' : rank) : rankValue r = rankValue r' → r = r'.
Proof. destruct r, r'; vm_compute; intros H; first [reflexivity | discriminate H]. Qed.

(** C2. For every attack card [a], defend card [d] and trump suit [t],
    [canBeat] accepts [d] against [a] exactly when the two cards share a suit
    and [d] has the higher rank, or [d] is a trump and [a] is not.  Hence a
    trump attack is beaten only by a higher trump, never by a non-trump. *)
Theorem canBeat_spec (a d : card) (t : suit) :
  (canBeat a (Some d) t = true ↔
     (c_suit a = c_suit d ∧ (rankValue (c_rank d) > rankValue (c_rank a))%Z)
     ∨ (c_suit d = t ∧ c_suit a ≠ t))
  ∧ (c_suit a = t → canBeat a (Some d) t = true →
       c_suit d = t ∧ (rankValue (c_rank d) > rankValue (c_rank a))%Z).
Proof.
  assert (Hiff : canBeat a (Some d) t = true ↔
     (c_suit a = c_suit d ∧ (rankValue (c_rank d) > rankValue (c_rank a))%Z)
     ∨ (c_suit d = t ∧ c_suit a ≠ t)).
  { unfold canBeat. case_bool_decide as Hs.
    - rewrite bool_decide_eq_true. split; [by left |].
      intros [[_ H] | [H1 H2]]; [done | congruence].
    - rewrite bool_decide_eq_true. split.
      + intros Hd. right. split; [exact Hd | congruence].
      + intros [[H _] | [H _]]; [contradiction | done]. }
  split; [exact Hiff |].
  intros Ha Hb. apply Hiff in Hb as [[Hs Hr] | [_ Hn]]; [| contradiction].
  split; [congruence | done].
Qed.

(** ** Array helpers *)

Lemma pop_Some {A} (l l' : list A) (x : A) : pop l = Some (x, l') ↔ l = l' ++ [x].
Proof.
  unfold pop. destruct (reverse l) as [|y r] eqn:E.
  - apply (f_equal reverse) in E. rewrite reverse_involutive in E. subst l.
    split; [done |]. intros H. by destruct l'.
  - apply (f_equal reverse) in E. rewrite reverse_involutive, reverse_cons in E.
    subst l. split.
    + by intros [= -> ->].
    + intros H. apply app_inj_tail in H as [-> ->]. done.
Qed.

Lemma pop_None {A} (l : list A) : pop l = None ↔ l = [].
Proof.
  unfold pop. destruct (reverse l) as [|y r] eqn:E.
  - apply (f_equal reverse) in E. by rewrite reverse_involutive in E.
  - split; [done |]. intros ->. done.
Qed.

Lemma pop_nonempty {A} (l : list A) : 0 < length l → ∃ x l', pop l = Some (x, l').
Proof.
  intros H. destruct (pop l) as [[x l']|] eqn:E; [eauto |].
  apply pop_None in E. subst. simpl in H. lia.
Qed.

Lemma findIndex_sameId (cd : card) (h : list card) (idx : nat) :
  findIndex (sameId cd) h = Some idx → h !! idx = Some cd.
Proof.
  unfold findIndex. intros H. apply fmap_Some in H as [[i c] [H ->]].
  apply list_find_Some in H as (Hl & Hc & _). apply sameId_true in Hc. by subst.
Qed.

Lemma findIndex_None_sameId (cd : card) (h : list card) :
  findIndex (sameId cd) h = None ↔ cd ∉ h.
Proof.
  unfold findIndex. rewrite fmap_None, list_find_None, Forall_forall. split.
  - intros H Hin. apply (H cd Hin). by apply sameId_true.
  - intros H c Hin Hc. apply sameId_true in Hc. by subst.
Qed.

(** ** Hands under an in-place update *)

Lemma allHands_delete (ps : list player) (i : nat) (p : player) :
  ps !! i = Some p → allHands ps ≡ₚ hand p ++ allHands (delete i ps).
Proof.
  revert i. induction ps as [|q ps IH]; intros [|i] H; simplify_eq/=; [done |].
  rewrite (IH _ H). apply Permutation_app_swap_app.
Qed.

Lemma allHands_alter (f : list card → list card) (ps : list player) (i : nat) (p : player) :
  ps !! i = Some p →
  allHands (alter (withHand f) i ps) ≡ₚ f (hand p) ++ allHands (delete i ps).
Proof.
  revert i. induction ps as [|q ps IH]; intros [|i] H; simplify_eq/=; [done |].
  rewrite (IH _ H). apply Permutation_app_swap_app.
Qed.

Lemma allHands_insert (ps : list player) (i : nat) (p q : player) :
  ps !! i = Some p →
  allHands (<[i := q]> ps) ≡ₚ hand q ++ allHands (delete i ps).
Proof.
  revert i. induction ps as [|r ps IH]; intros [|i] H; simplify_eq/=; [done |].
  rewrite (IH _ H). apply Permutation_app_swap_app.
Qed.

(** ** Refill *)

Lemma drawUpTo8_stop (h d : list card) :
  8 ≤ length h ∨ d = [] → drawUpTo8 h d = (h, d).
Proof.
  intros H. unfold drawUpTo8.
  replace ((8 - length h) `min` length d) with 0
    by (destruct H as [H | ->]; [lia | simpl; lia]).
  rewrite Nat.sub_0_r, drop_all, firstn_all. simpl. by rewrite app_nil_r.
Qed.

(** With at least [length deck] iterations of fuel the loop runs to its
    exit test and computes the closed form. *)
Lemma fillLoop_drawUpTo8 (fuel : nat) (h d : list card) :
  length d ≤ fuel → fillLoop fuel h d = drawUpTo8 h d.
Proof.
  revert h d. induction fuel as [|fuel IH]; intros h d Hf.
  - destruct d; [| simpl in Hf; lia]. simpl. by rewrite drawUpTo8_stop by auto.
  - simpl. destruct (length h <? 8) eqn:Hh; simpl.
    2:{ apply Nat.ltb_ge in Hh. by rewrite drawUpTo8_stop by auto. }
    apply Nat.ltb_lt in Hh.
    destruct (0 <? length d) eqn:Hd.
    2:{ apply Nat.ltb_ge in Hd. destruct d; [| simpl in Hd; lia].
        by rewrite drawUpTo8_stop by auto. }
    apply Nat.ltb_lt in Hd.
    destruct (pop_nonempty d Hd) as (c & d' & Hp). rewrite Hp.
    apply pop_Some in Hp. subst d. rewrite length_app in Hf. simpl in Hf.
    rewrite IH by lia. unfold drawUpTo8.
    rewrite !length_app. simpl.
    replace ((8 - length h) `min` (length d' + 1))
      with (S ((8 - (length h + 1)) `min` length d')) by lia.
    set (k := (8 - (length h + 1)) `min` length d').
    replace (length d' + 1 - S k) with (length d' - k) by lia.
    rewrite drop_app_le, take_app_le by lia.
    rewrite reverse_app. simpl. by rewrite <- app_assoc.
Qed.

Lemma drawUpTo8_facts (h d h' d' : list card) :
  drawUpTo8 h d = (h', d') →
  h' ++ d' ≡ₚ h ++ d
  ∧ h `prefix_of` h'
  ∧ d' `prefix_of` d
  ∧ length h' ≤ 8 `max` length h
  ∧ (8 ≤ length h' ∨ d' = []).
Proof.
  unfold drawUpTo8. set (k := (8 - length h) `min` length d). intros [= <- <-].
  split; [| split; [| split; [| split]]].
  - rewrite <- app_assoc. apply Permutation_app_head.
    rewrite reverse_Permutation, (comm (++)). by rewrite take_drop.
  - by apply prefix_app_r.
  - apply prefix_take.
  - rewrite length_app, length_reverse, length_drop. lia.
  - rewrite length_app, length_reverse, length_drop.
    destruct (decide (8 - length h ≤ length d)).
    + left. lia.
    + right. replace (length d - k) with 0 by lia. done.
Qed.

(** *** One visit *)

Lemma drawFor_refillPlayer (a : nat) (st : list player * list card) (offset : nat) :
  drawFor a st offset = refillPlayer st ((a + offset) mod length st.1).
Proof.
  unfold drawFor, refillPlayer. destruct (st.1 !! _) as [p|]; [| done].
  by rewrite fillLoop_drawUpTo8.
Qed.

Lemma refillPlayer_length (st : list player * list card) (i : nat) :
  length (refillPlayer st i).1 = length st.1.
Proof.
  unfold refillPlayer. destruct (st.1 !! i) as [p|]; [| done].
  destruct (drawUpTo8 _ _). simpl. apply length_insert.
Qed.

Lemma foldl_drawFor (a : nat) (offsets : list nat) (st : list player * list card) :
  foldl (drawFor a) st offsets
  = foldl refillPlayer st (map (fun offset => (a + offset) mod length st.1) offsets).
Proof.
  revert st. induction offsets as [|o offsets IH]; intros st; [done |].
  simpl. rewrite IH, drawFor_refillPlayer. by rewrite refillPlayer_length.
Qed.

Lemma refilled_refl st : refilled st st.
Proof.
  repeat split; try done. intros i p H. exists p. repeat split; try done. lia.
Qed.

Lemma refilled_trans st1 st2 st3 :
  refilled st1 st2 → refilled st2 st3 → refilled st1 st3.
Proof.
  intros (L1 & D1 & P1 & H1) (L2 & D2 & P2 & H2). repeat split.
  - congruence.
  - by etrans.
  - by etrans.
  - intros i p Hp. destruct (H1 i p Hp) as (p2 & Hp2 & I2 & N2 & X2 & C2).
    destruct (H2 i p2 Hp2) as (p3 & Hp3 & I3 & N3 & X3 & C3).
    exists p3. repeat split; try congruence; [by etrans | lia].
Qed.

Lemma topped_refilled st st' i :
  topped st i → refilled st st' → topped st' i.
Proof.
  intros Ht (L & D & _ & H) p' Hp'.
  destruct (st.1 !! i) as [p|] eqn:Hp.
  - destruct (H i p Hp) as (q & Hq & _ & _ & X & _). simplify_eq.
    destruct (Ht p Hp) as [Hl | Hd].
    + left. apply prefix_length in X. lia.
    + right. rewrite Hd in D. by apply prefix_nil_inv in D.
  - apply lookup_ge_None in Hp. apply lookup_lt_Some in Hp'. lia.
Qed.

Lemma refillPlayer_refilled st i : refilled st (refillPlayer st i) ∧ topped (refillPlayer st i) i.
Proof.
  unfold refillPlayer. destruct (st.1 !! i) as [p|] eqn:Hp.
  2:{ split; [apply refilled_refl |]. intros q Hq. congruence. }
  destruct (drawUpTo8 (hand p) st.2) as [h d] eqn:Hd.
  apply drawUpTo8_facts in Hd as (P & X & D & C & T).
  assert (Hi : i < length st.1) by by eapply lookup_lt_Some.
  split; [repeat split |]; simpl.
  - apply length_insert.
  - done.
  - rewrite (allHands_insert _ _ _ _ Hp), (allHands_delete _ _ _ Hp). simpl.
    rewrite <- !app_assoc.
    etrans; [apply Permutation_app_swap_app |].
    etrans; [| apply Permutation_app_swap_app].
    by apply Permutation_app_head.
  - intros j q Hq. destruct (decide (i = j)) as [<- | Hne].
    + simplify_eq. eexists. split; [by apply list_lookup_insert_eq |]. by repeat split.
    + exists q. split; [by rewrite list_lookup_insert_ne |].
      repeat split; try done. lia.
  - unfold topped. simpl. intros q. rewrite list_lookup_insert_eq by done.
    by intros [= <-].
Qed.

Lemma foldl_refillPlayer_refilled (order : list nat) st :
  refilled st (foldl refillPlayer st order)
  ∧ ∀ i, i ∈ order → topped (foldl refillPlayer st order) i.
Proof.
  revert st. induction order as [|j order IH]; intros st; simpl.
  - split; [apply refilled_refl |]. intros i Hi. by apply elem_of_nil in Hi.
  - destruct (refillPlayer_refilled st j) as [R1 T1].
    destruct (IH (refillPlayer st j)) as [R2 T2].
    split; [by eapply refilled_trans |].
    intros i Hi. apply elem_of_cons in Hi as [-> | Hi]; [| by apply T2].
    by eapply topped_refilled.
Qed.

(** *** The visiting order *)

Lemma refillOrder_lookup (n a k : nat) :
  k < n → refillOrder n a !! k = Some ((a + k) mod n).
Proof.
  intros H. unfold refillOrder. rewrite list_lookup_fmap.
  rewrite lookup_seq_lt by done. done.
Qed.

Lemma refillOrder_elem (n a i : nat) : i < n → i ∈ refillOrder n a.
Proof.
  intros H. unfold refillOrder. apply list_elem_of_fmap.
  exists ((i + (n - a mod n)) mod n).
  assert (Hn : n ≠ 0) by lia.
  pose proof (Nat.mod_upper_bound a n Hn) as Ha.
  split.
  - rewrite <- Nat.Div0.add_mod_idemp_l, Nat.Div0.add_mod_idemp_r.
    replace (a mod n + (i + (n - a mod n))) with (i + 1 * n) by lia.
    rewrite Nat.Div0.mod_add. symmetry. by apply Nat.mod_small.
  - apply elem_of_seq. split; [lia |]. simpl. by apply Nat.mod_upper_bound.
Qed.

Lemma refillOrder_Permutation (n a : nat) : refillOrder n a ≡ₚ seq 0 n.
Proof.
  symmetry. apply NoDup_Permutation_bis.
  - apply List.seq_NoDup.
  - unfold refillOrder. by rewrite length_map.
  - intros i Hi. apply list_elem_of_In, elem_of_seq in Hi.
    apply list_elem_of_In, refillOrder_elem. lia.
Qed.

Lemma drawToFill_refillSpec (s : GameState) :
  drawToFill s =
    Game (refillSpec (attacker s) (players s) (deck s)).1
         (refillSpec (attacker s) (players s) (deck s)).2
         (trump s) (table s) (attacker s) (defender s) (phase_ s) (maxAdds s).
Proof.
  unfold drawToFill, refillSpec, refillOrder. rewrite foldl_drawFor. simpl.
  by destruct (foldl refillPlayer _ _).
Qed.

Lemma refillSpec_refilled (a : nat) (ps : list player) (d : list card) :
  refilled (ps, d) (refillSpec a ps d)
  ∧ ∀ i, i < length ps → topped (refillSpec a ps d) i.
Proof.
  unfold refillSpec.
  destruct (foldl_refillPlayer_refilled (refillOrder (length ps) a) (ps, d)) as [R T].
  split; [done |]. intros i Hi. apply T. by apply refillOrder_elem.
Qed.

Lemma drawToFill_cards (s : GameState) :
  cardsInPlay (drawToFill s) ≡ₚ cardsInPlay s.
Proof.
  rewrite drawToFill_refillSpec. unfold cardsInPlay. simpl.
  destruct (refillSpec_refilled (attacker s) (players s) (deck s)) as [(_ & _ & P & _) _].
  simpl in P. rewrite !app_assoc. apply Permutation_app_tail.
  by rewrite (comm (++)), P, (comm (++)).
Qed.

(** ** Card accounting of the four actions *)

Lemma allHands_play (ps : list player) (i idx : nat) (p : player) (c : card) :
  ps !! i = Some p → hand p !! idx = Some c →
  allHands ps ≡ₚ c :: allHands (alter (withHand (delete idx)) i ps).
Proof.
  intros Hp Hc. rewrite (allHands_alter _ _ _ _ Hp), (allHands_delete _ _ _ Hp).
  by rewrite (delete_Permutation _ _ _ Hc) at 1.
Qed.

Lemma allHands_take (ps : list player) (i : nat) (p : player) (extra : list card) :
  ps !! i = Some p →
  allHands (alter (withHand (fun h => h ++ extra)) i ps) ≡ₚ extra ++ allHands ps.
Proof.
  intros Hp. rewrite (allHands_alter _ _ _ _ Hp), (allHands_delete _ _ _ Hp).
  rewrite <- app_assoc. apply Permutation_app_swap_app.
Qed.

Lemma tableCards_snoc (t : list pair) (c : card) (i : nat) :
  tableCards (t ++ [Pair c None i]) = tableCards t ++ [c].
Proof. unfold tableCards. by rewrite flat_map_app. Qed.

Lemma tableCards_defend (t : list pair) (i : nat) (tp : pair) (c : card) :
  t !! i = Some tp → isDefended tp = false →
  tableCards (<[i := Pair (attack tp) (Some c) (by_ tp)]> t) ≡ₚ c :: tableCards t.
Proof.
  destruct tp as [a [d|] b]; [done |]. intros H _. unfold tableCards.
  revert i H. induction t as [|q t IH]; intros [|i] H; simplify_eq/=.
  - apply perm_swap.
  - rewrite (IH _ H). symmetry. apply Permutation_middle.
Qed.

Lemma cardsInPlay_setPhase (ph : phase) (s : GameState) :
  cardsInPlay (setPhase ph s) = cardsInPlay s.
Proof. done. Qed.

Lemma cardsInPlay_checkForFinish (s : GameState) :
  cardsInPlay (checkForFinish s).2 = cardsInPlay s.
Proof. unfold checkForFinish. by destruct (0 <? _). Qed.

Lemma playAttack_cards (g g' : GameState) (pI : nat) (c : card) :
  playAttack g pI c = SetGame g' → cardsInPlay g' ≡ₚ cardsInPlay g.
Proof.
  unfold playAttack. destruct (negb _); [done |].
  destruct (players g !! pI) as [pl|] eqn:Hpl; [| done].
  destruct (findIndex _ _) as [idx|] eqn:Hidx; [| done].
  destruct (_ !! defender g); [| done]. intros [= <-].
  apply findIndex_sameId in Hidx.
  unfold cardsInPlay. simpl. rewrite tableCards_snoc.
  rewrite (allHands_play _ _ _ _ _ Hpl Hidx).
  apply Permutation_app_head. simpl.
  rewrite app_assoc. symmetry. apply Permutation_cons_append.
Qed.

Lemma addAttack_cards (g g' : GameState) (pI : nat) (c : card) :
  addAttack g pI c = SetGame g' → cardsInPlay g' ≡ₚ cardsInPlay g.
Proof.
  unfold addAttack. destruct (negb _); [done |].
  destruct (players g !! pI) as [pl|] eqn:Hpl; [| done].
  destruct (findIndex _ _) as [idx|] eqn:Hidx; [| done].
  destruct (negb _); [done |]. destruct (8 <=? _); [done |].
  destruct (_ !! defender g); [| done].
  intros H. assert (H' : SetGame (Game (alter (withHand (delete idx)) pI (players g))
                              (deck g) (trump g)
                              (table g ++ [Pair c None pI])
                              (attacker g) (defender g) (phase_ g)
                              (maxAdds g)) = SetGame g').
  { by destruct (_ <=? _). }
  clear H. injection H' as <-.
  apply findIndex_sameId in Hidx.
  unfold cardsInPlay. simpl. rewrite tableCards_snoc.
  rewrite (allHands_play _ _ _ _ _ Hpl Hidx).
  apply Permutation_app_head. simpl.
  rewrite app_assoc. symmetry. apply Permutation_cons_append.
Qed.

Lemma defenderTakes_cards (g g' : GameState) :
  defenderTakes g = SetGame g' → cardsInPlay g' ≡ₚ cardsInPlay g.
Proof.
  unfold defenderTakes. destruct (players g !! defender g) as [pl|] eqn:Hpl; [| done].
  intros [= <-]. rewrite cardsInPlay_checkForFinish, cardsInPlay_setPhase, drawToFill_cards.
  unfold cardsInPlay. simpl. rewrite app_nil_r.
  apply Permutation_app_head. rewrite (allHands_take _ _ _ _ Hpl).
  apply (comm (++)).
Qed.

Lemma playDefend_cards (g g' : GameState) (pI aI : nat) (c : card) :
  playDefend g pI aI c = SetGame g' →
  cardsInPlay g' ++ discarded g (Defend pI aI c) ≡ₚ cardsInPlay g.
Proof.
  unfold playDefend, discarded. destruct (negb _); [done |].
  destruct (table g !! aI) as [tp|] eqn:Htp; [| done].
  destruct (isDefended tp) eqn:Hdef; [done |].
  destruct (players g !! pI) as [pl|] eqn:Hpl; [| done].
  destruct (findIndex _ _) as [idx|] eqn:Hidx; [| done].
  destruct (negb _); [done |].
  apply findIndex_sameId in Hidx.
  pose proof (tableCards_defend _ _ _ c Htp Hdef) as Ht.
  pose proof (allHands_play _ _ _ _ _ Hpl Hidx) as Hh.
  simpl. destruct (forallb isDefended _); intros [= <-].
  - rewrite cardsInPlay_checkForFinish, cardsInPlay_setPhase, drawToFill_cards.
    unfold cardsInPlay. simpl. rewrite app_nil_r, Ht, Hh.
    rewrite <- app_assoc. apply Permutation_app_head.
    rewrite <- Permutation_middle. done.
  - unfold cardsInPlay. simpl. rewrite app_nil_r, Ht, Hh.
    apply Permutation_app_head. rewrite <- Permutation_middle. done.
Qed.

Lemma handle_cards (g g' : GameState) (a : action) :
  handle g a = SetGame g' → cardsInPlay g' ++ discarded g a ≡ₚ cardsInPlay g.
Proof.
  destruct a as [p c | p i c | p c |]; intros H.
  - simpl. rewrite app_nil_r. exact (playAttack_cards _ _ _ _ H).
  - exact (playDefend_cards _ _ _ _ _ H).
  - simpl. rewrite app_nil_r. exact (addAttack_cards _ _ _ _ H).
  - simpl. rewrite app_nil_r. exact (defenderTakes_cards _ _ H).
Qed.

(** ** Shuffle *)

Lemma insert_Permutation_delete {A} (l : list A) (i : nat) (x : A) :
  i < length l → <[i := x]> l ≡ₚ x :: delete i l.
Proof.
  intros H. rewrite insert_take_drop by done. rewrite delete_take_drop.
  symmetry. apply Permutation_middle.
Qed.

Lemma swap_Permutation {A} (a : list A) (i j : nat) : swap a i j ≡ₚ a.
Proof.
  unfold swap. destruct (a !! i) as [x|] eqn:Hi; [| done].
  destruct (a !! j) as [y|] eqn:Hj; [| done].
  destruct (decide (i = j)) as [-> | Hne].
  - rewrite list_insert_insert_eq. by rewrite list_insert_id.
  - assert (Hli : i < length a) by by eapply lookup_lt_Some.
    assert (Hlj : j < length a) by by eapply lookup_lt_Some.
    set (b := <[i := y]> a).
    assert (Hb : b !! j = Some y) by by (unfold b; rewrite list_lookup_insert_ne).
    rewrite insert_Permutation_delete by (unfold b; by rewrite length_insert).
    rewrite (delete_Permutation a i x Hi). apply perm_skip.
    apply (Permutation_cons_inv (a := y)).
    rewrite <- (delete_Permutation b j y Hb). unfold b.
    by apply insert_Permutation_delete.
Qed.

Lemma shuffleLoop_Permutation {A} (pick : nat → nat) (i : nat) (a : list A) :
  shuffleLoop pick i a ≡ₚ a.
Proof.
  revert a. induction i as [|i IH]; intros a; simpl; [done |].
  by rewrite IH, swap_Permutation.
Qed.

Lemma shuffle_Permutation {A} (pick : nat → nat) (arr : list A) :
  shuffle pick arr ≡ₚ arr.
Proof. apply shuffleLoop_Permutation. Qed.

Lemma makeDeck_NoDup : NoDup makeDeck.
Proof. apply (bool_decide_unpack (NoDup makeDeck)). by vm_compute. Qed.

Lemma makeDeck_length : length makeDeck = 36.
Proof. reflexivity. Qed.

(** ** Deal *)

Lemma dealt_trans (k1 k2 : nat) st1 st2 st3 :
  dealt k1 st1 st2 → dealt k2 st2 st3 → dealt (k1 + k2) st1 st3.
Proof.
  intros (L1 & N1 & X1 & P1) (L2 & N2 & X2 & P2). repeat split.
  - congruence.
  - lia.
  - by etrans.
  - by etrans.
Qed.

Lemma dealOne_dealt (ps : list player) (d : list card) (p : nat) :
  p < length ps → 0 < length d →
  ∃ st', dealOne (Some (ps, d)) p = Some st' ∧ dealt 1 (ps, d) st'.
Proof.
  intros Hp Hd. destruct (pop_nonempty d Hd) as (c & d' & Hpop).
  unfold dealOne. simpl. rewrite Hpop. simpl. eexists. split; [done |].
  apply pop_Some in Hpop. subst d.
  destruct (lookup_lt_is_Some_2 ps p Hp) as [pl Hpl].
  repeat split; simpl.
  - apply length_alter.
  - by rewrite length_app.
  - by apply prefix_app_r.
  - rewrite (allHands_alter _ _ _ _ Hpl), (allHands_delete _ _ _ Hpl).
    rewrite <- !app_assoc. apply Permutation_app_head.
    rewrite (app_assoc _ d' [c]). apply (comm (++)).
Qed.

Lemma foldl_dealOne_None (l : list nat) : foldl dealOne None l = None.
Proof. by induction l. Qed.

Lemma foldl_dealOne_dealt (l : list nat) (ps : list player) (d : list card) :
  Forall (fun p => p < length ps) l → length l ≤ length d →
  ∃ st', foldl dealOne (Some (ps, d)) l = Some st' ∧ dealt (length l) (ps, d) st'.
Proof.
  revert ps d. induction l as [|p l IH]; intros ps d Hl Hd.
  - exists (ps, d). split; [done |]. repeat split; simpl; try done; lia.
  - apply Forall_cons in Hl as [Hp Hl]. simpl in Hd.
    destruct (dealOne_dealt ps d p Hp) as ([ps1 d1] & E1 & D1); [lia |].
    cbn [foldl]. rewrite E1. pose proof D1 as (L1 & N1 & _). simpl in L1, N1.
    destruct (IH ps1 d1) as (st' & E2 & D2).
    { by rewrite L1. }
    { lia. }
    exists st'. split; [done |]. by apply (dealt_trans 1 (length l) _ _ _ D1).
Qed.

Lemma dealRound_dealt (n i : nat) (ps : list player) (d : list card) :
  length ps = n → n ≤ length d →
  ∃ st', dealRound n (Some (ps, d)) i = Some st' ∧ dealt n (ps, d) st'.
Proof.
  intros Hn Hd. unfold dealRound.
  destruct (foldl_dealOne_dealt (seq 0 n) ps d) as (st' & E & D).
  - apply Forall_forall. intros p Hp. apply elem_of_seq in Hp. lia.
  - by rewrite length_seq.
  - rewrite length_seq in D. eauto.
Qed.

Lemma foldl_dealRound_dealt (n : nat) (l : list nat) (ps : list player) (d : list card) :
  length ps = n → length l * n ≤ length d →
  ∃ st', foldl (dealRound n) (Some (ps, d)) l = Some st'
         ∧ dealt (length l * n) (ps, d) st'.
Proof.
  revert ps d. induction l as [|i l IH]; intros ps d Hn Hd.
  - exists (ps, d). split; [done |]. repeat split; simpl; try done; lia.
  - simpl in Hd. destruct (dealRound_dealt n i ps d Hn) as ([ps1 d1] & E1 & D1); [lia |].
    cbn [foldl]. rewrite E1. pose proof D1 as (L1 & N1 & _). simpl in L1, N1.
    destruct (IH ps1 d1) as (st' & E2 & D2); [congruence | lia |].
    exists st'. split; [done |]. by apply (dealt_trans n (length l * n) _ _ _ D1).
Qed.

(** ** Setup *)

Lemma allHands_fresh (f : nat → string) (l : list nat) :
  allHands (map (fun i => Player i (f i) []) l) = [].
Proof. by induction l. Qed.

Lemma dealFrom_dealt (deck0 : list card) (n : nat) :
  n ≤ 4 → length deck0 = 36 →
  ∃ ps1 d1, dealFrom deck0 n = Some (ps1, d1)
    ∧ length ps1 = n
    ∧ length d1 = 36 - 8 * n
    ∧ d1 `prefix_of` deck0
    ∧ allHands ps1 ++ d1 ≡ₚ deck0.
Proof.
  intros Hn Hl. unfold dealFrom.
  set (players0 := map _ (seq 0 n)).
  assert (Hp : length players0 = n).
  { unfold players0. by rewrite length_map, length_seq. }
  destruct (foldl_dealRound_dealt n (seq 0 8) players0 deck0 Hp) as ([ps1 d1] & E & D).
  { rewrite length_seq. lia. }
  rewrite length_seq in D. destruct D as (L & N & X & P). cbn [fst snd] in L, N, X, P.
  exists ps1, d1. split; [done |]. split; [congruence |]. split; [lia |].
  split; [done |].
  rewrite P. unfold players0. by rewrite allHands_fresh.
Qed.

Lemma dealHands_dealt (pick : nat → nat) (n : nat) :
  n ≤ 4 →
  ∃ ps1 d1, dealHands pick n = Some (ps1, d1)
    ∧ length ps1 = n
    ∧ length d1 = 36 - 8 * n
    ∧ d1 `prefix_of` shuffle pick makeDeck
    ∧ allHands ps1 ++ d1 ≡ₚ makeDeck.
Proof.
  intros Hn.
  pose proof (shuffle_Permutation pick makeDeck) as Hs.
  pose proof (Permutation_length Hs) as Hl. rewrite makeDeck_length in Hl.
  revert Hs Hl. unfold dealHands. generalize (shuffle pick makeDeck). intros deck0 Hs Hl.
  destruct (dealFrom_dealt deck0 n Hn Hl) as (ps1 & d1 & E & L & N & X & P).
  exists ps1, d1. repeat split; try done. by rewrite P.
Qed.

Lemma newGame_setup (pick : nat → nat) (n : nat) :
  n ≤ 4 →
  ∃ ps1 d1 tc d2,
    dealHands pick n = Some (ps1, d1) ∧ pop d1 = Some (tc, d2)
    ∧ length ps1 = n ∧ length d2 = 35 - 8 * n
    ∧ allHands ps1 ++ d2 ++ [tc] ≡ₚ makeDeck
    ∧ newGame pick n =
        Some (Game ps1 (tc :: d2) (c_suit tc) []
                   (findFirstAttacker ps1 (c_suit tc))
                   ((findFirstAttacker ps1 (c_suit tc) + 1) mod n) PAttack 0).
Proof.
  intros Hn. destruct (dealHands_dealt pick n Hn) as (ps1 & d1 & E & L & N & X & P).
  destruct (pop_nonempty d1) as (tc & d2 & Hpop); [lia |].
  exists ps1, d1, tc, d2. pose proof Hpop as Hd1. apply pop_Some in Hd1. subst d1.
  rewrite length_app in N. simpl in N.
  repeat split; try done; try lia.
  unfold newGame. rewrite E. simpl. rewrite Hpop. done.
Qed.

Lemma newGame_cards (pick : nat → nat) (n : nat) (g : GameState) :
  n ≤ 4 → newGame pick n = Some g → cardsInPlay g ≡ₚ makeDeck.
Proof.
  intros Hn Hg. destruct (newGame_setup pick n Hn) as (ps1 & d1 & tc & d2 & _ & _ & _ & _ & P & E).
  rewrite E in Hg. injection Hg as <-. unfold cardsInPlay. simpl.
  rewrite app_nil_r, <- P. rewrite (comm (++) (allHands ps1)).
  rewrite <- app_assoc. simpl. apply Permutation_middle.
Qed.

(** ** Conservation *)

(** C1. In every state reached from a fresh deal by accepted actions, the
    deck, the hands, the cards on the table and the cards discarded at
    earlier resolutions together are exactly the 36 cards of [makeDeck]:
    a rearrangement of it, hence without duplicate or missing card. *)
Theorem conservation (g : GameState) (pile : list card) :
  reachable g pile →
  cardsInPlay g ++ pile ≡ₚ makeDeck
  ∧ NoDup (cardsInPlay g ++ pile)
  ∧ length (cardsInPlay g ++ pile) = 36
  ∧ ∀ c : card, c ∈ cardsInPlay g ++ pile.
Proof.
  intros H.
  assert (P : cardsInPlay g ++ pile ≡ₚ makeDeck).
  { induction H as [pick n g Hn Hg | g pile a g' _ IH Ha].
    - rewrite app_nil_r. apply (newGame_cards pick n); [lia | done].
    - rewrite (comm (++) pile), app_assoc, (handle_cards _ _ _ Ha). done. }
  split; [done |]. split; [| split].
  - rewrite P. apply makeDeck_NoDup.
  - by rewrite P.
  - intros c. rewrite P.
    destruct c as [[] []]; apply (bool_decide_unpack _); by vm_compute.
Qed.

Lemma deal3_reachable : reachable deal3 [].
Proof. apply (reach_new keepOrder 3); [lia | by vm_compute]. Qed.

Lemma deal3_attacked_reachable : reachable deal3_attacked [].
Proof.
  apply (reach_step deal3 [] (Attack 2 (Card Spades RQ))); [apply deal3_reachable |].
  by vm_compute.
Qed.

Lemma conservation_witness :
  reachable deal3_attacked []
  ∧ cardsInPlay deal3_attacked ++ [] ≡ₚ makeDeck
  ∧ NoDup (cardsInPlay deal3_attacked ++ [])
  ∧ length (cardsInPlay deal3_attacked ++ []) = 36
  ∧ ∀ c : card, c ∈ cardsInPlay deal3_attacked ++ [].
Proof.
  split; [apply deal3_attacked_reachable |].
  apply (conservation deal3_attacked [] deal3_attacked_reachable).
Defined.

(** ** Refill: order, amounts and the hand cap *)

(** C8 (as the code has it).  [drawToFill] visits every player exactly once,
    in index order modulo the player count starting at the attacker; each
    visit moves single cards from the draw end of the deck to the end of
    the hand until the hand has 8 cards or the deck is empty, and changes
    nothing else.  Hence a refill never brings a hand beyond 8 by drawing:
    every hand ends at most as large as the larger of 8 and its size
    before, and a hand that ends below 8 leaves the deck empty.  (A hand
    that had more than 8 cards before the refill keeps them.) *)
Theorem drawToFill_refill (s : GameState) :
  let n := length (players s) in
  let s' := drawToFill s in
  refillOrder n (attacker s) ≡ₚ seq 0 n
  ∧ (∀ k, k < n → refillOrder n (attacker s) !! k = Some ((attacker s + k) mod n))
  ∧ (attacker s < n → head (refillOrder n (attacker s)) = Some (attacker s))
  ∧ (players s', deck s') = refillSpec (attacker s) (players s) (deck s)
  ∧ (trump s', table s', attacker s', defender s', phase_ s', maxAdds s')
      = (trump s, table s, attacker s, defender s, phase_ s, maxAdds s)
  ∧ length (players s') = n
  ∧ deck s' `prefix_of` deck s
  ∧ ∀ i p, players s !! i = Some p →
      ∃ p', players s' !! i = Some p'
            ∧ p_id p' = p_id p ∧ p_name p' = p_name p
            ∧ hand p `prefix_of` hand p'
            ∧ length (hand p') ≤ 8 `max` length (hand p)
            ∧ (length (hand p') < 8 → deck s' = []).
Proof.
  intros n s'. unfold s'. rewrite drawToFill_refillSpec. simpl.
  destruct (refillSpec_refilled (attacker s) (players s) (deck s))
    as [(L & D & _ & H) T].
  split; [apply refillOrder_Permutation |].
  split; [intros k Hk; by apply refillOrder_lookup |].
  split.
  { intros Ha. rewrite head_lookup, refillOrder_lookup by lia.
    rewrite Nat.add_0_r. by rewrite Nat.mod_small. }
  split; [by destruct (refillSpec _ _ _) |].
  split; [done |]. split; [done |]. split; [done |].
  intros i p Hp. destruct (H i p Hp) as (p' & Hp' & I & N & X & C).
  exists p'. repeat split; try done.
  intros Hlt. assert (Hi : i < length (players s)) by by eapply lookup_lt_Some.
  destruct (T i Hi p' Hp') as [? | ?]; [lia | done].
Qed.

(** C8 as stated fails: after the refill that ends a take the defender
    holds the 8 cards dealt plus the card taken, 9 cards, the deck being
    far from empty. *)
Lemma refill_hand_cap_counterexample :
  newGame keepOrder 3 = Some deal3
  ∧ playAttack deal3 2 (Card Spades RQ) = SetGame deal3_attacked
  ∧ defenderTakes deal3_attacked = SetGame deal3_taken
  ∧ defender deal3_attacked = 0
  ∧ (length ∘ hand) <$> players deal3_taken = [9; 8; 8]
  ∧ length (deck deal3_taken) = 11
  ∧ ¬ (∀ p, p ∈ players deal3_taken → length (hand p) ≤ 8).
Proof.
  split; [by vm_compute |]. split; [by vm_compute |]. split; [by vm_compute |].
  split; [done |]. split; [done |]. split; [done |].
  intros H. destruct (players deal3_taken) as [|p ps] eqn:E; [done |].
  specialize (H p (list_elem_of_here _ _)). injection E as <- _. simpl in H. lia.
Qed.

(** ** Termination *)

Lemma finishedPlayers_nonempty (s : GameState) :
  (0 <? length (finishedPlayers s)) = true ↔ someoneOut s.
Proof.
  unfold finishedPlayers, someoneOut. rewrite Nat.ltb_lt. split.
  - intros H. destruct (List.filter _ _) as [|p l] eqn:E; [simpl in H; lia |].
    assert (Hin : In p (List.filter
      (fun p => (length (hand p) =? 0) && (length (deck s) =? 0)) (players s))).
    { rewrite E. by left. }
    apply filter_In in Hin as [Hin Hp]. apply andb_true_iff in Hp as [Hh Hd].
    apply Nat.eqb_eq in Hh, Hd. split.
    + exists p. split; [by apply list_elem_of_In |]. by apply length_zero_iff_nil.
    + by apply length_zero_iff_nil.
  - intros [(p & Hin & Hh) Hd].
    assert (Hp : In p (List.filter
      (fun p => (length (hand p) =? 0) && (length (deck s) =? 0)) (players s))).
    { apply filter_In. split; [by apply list_elem_of_In |]. by rewrite Hh, Hd. }
    destruct (List.filter _ _); [done | simpl; lia].
Qed.

Lemma checkForFinish_after (s : GameState) :
  players (snd (checkForFinish (setPhase PAttack s))) = players s
  ∧ deck (snd (checkForFinish (setPhase PAttack s))) = deck s
  ∧ table (snd (checkForFinish (setPhase PAttack s))) = table s
  ∧ attacker (snd (checkForFinish (setPhase PAttack s))) = attacker s
  ∧ defender (snd (checkForFinish (setPhase PAttack s))) = defender s
  ∧ (phase_ (snd (checkForFinish (setPhase PAttack s))) = PFinished ↔ someoneOut s)
  ∧ (phase_ (snd (checkForFinish (setPhase PAttack s))) = PFinished
     ∨ phase_ (snd (checkForFinish (setPhase PAttack s))) = PAttack).
Proof.
  pose proof (finishedPlayers_nonempty (setPhase PAttack s)) as H.
  unfold checkForFinish. destruct (0 <? _) eqn:E; simpl.
  - do 5 (split; [done |]). split; [| by left].
    split; [intros _; by apply H | done].
  - do 5 (split; [done |]). split; [| by right].
    split; [done |]. intros Hs. apply H in Hs. done.
Qed.

Lemma ends_round_shape (g g' : GameState) (a : action) :
  handle g a = SetGame g' → endsRound g a = true →
  ∃ s, g' = snd (checkForFinish (setPhase PAttack (drawToFill s))) ∧ table s = [].
Proof.
  destruct a as [p c | p i c | p c |]; simpl; try done.
  - unfold playDefend, resolves. destruct (negb _); [done |].
    destruct (table g !! i) as [tp|]; [| done].
    destruct (isDefended tp); [done |].
    destruct (players g !! p) as [pl|]; [| done].
    destruct (findIndex _ _) as [idx|]; [| done].
    destruct (negb _); [done |]. simpl.
    intros H E. rewrite E in H. injection H as <-. eexists. split; [done |]. done.
  - unfold defenderTakes. destruct (players g !! defender g); [| done].
    intros [= <-] _. eexists. split; [done |]. done.
Qed.

(** C3. After every round resolution (a defend that leaves every pair on
    the table defended) and after every take, the phase is Finished exactly
    when some hand is empty and the deck is empty too; otherwise it is
    Attack.  In particular it is never Finished while the deck holds a card,
    even if a hand is empty. *)
Theorem finish_exact (g g' : GameState) (a : action) :
  handle g a = SetGame g' → endsRound g a = true →
  (phase_ g' = PFinished ↔ someoneOut g')
  ∧ (phase_ g' = PFinished ∨ phase_ g' = PAttack)
  ∧ (deck g' ≠ [] → phase_ g' = PAttack).
Proof.
  intros H E. destruct (ends_round_shape g g' a H E) as (s & -> & _).
  destruct (checkForFinish_after (drawToFill s)) as (Hp & Hd & _ & _ & _ & Hf & Hor).
  assert (Hiff : phase_ (snd (checkForFinish (setPhase PAttack (drawToFill s)))) = PFinished
                 ↔ someoneOut (snd (checkForFinish (setPhase PAttack (drawToFill s))))).
  { rewrite Hf. unfold someoneOut. by rewrite Hp, Hd. }
  split; [done |]. split; [done |].
  intros Hne. destruct Hor as [Hfin | Hatt]; [| done].
  apply Hiff in Hfin as [_ Hfin]. done.
Qed.

Lemma finish_exact_witness :
  handle lastCards_attacked (Defend 1 0 (Card Clubs R9)) = SetGame lastCards_defended
  ∧ endsRound lastCards_attacked (Defend 1 0 (Card Clubs R9)) = true
  ∧ (phase_ lastCards_defended = PFinished ↔ someoneOut lastCards_defended)
  ∧ (phase_ lastCards_defended = PFinished ∨ phase_ lastCards_defended = PAttack)
  ∧ (deck lastCards_defended ≠ [] → phase_ lastCards_defended = PAttack).
Proof.
  assert (H : handle lastCards_attacked (Defend 1 0 (Card Clubs R9))
              = SetGame lastCards_defended) by by vm_compute.
  assert (E : endsRound lastCards_attacked (Defend 1 0 (Card Clubs R9)) = true)
    by by vm_compute.
  split; [exact H |]. split; [exact E |].
  exact (finish_exact _ _ _ H E).
Defined.

Example finish_exact_game_over : phase_ lastCards_defended = PFinished.
Proof. reflexivity. Qed.

Example finish_exact_game_goes_on :
  handle deal3_attacked Take = SetGame deal3_taken
  ∧ phase_ deal3_taken = PAttack.
Proof. split; [by vm_compute | reflexivity]. Qed.

(** ** The trump card *)

Lemma pop_cons_snoc {A} (x y : A) (l : list A) : pop (x :: l ++ [y]) = Some (y, x :: l).
Proof. apply pop_Some. done. Qed.

(** C6 (as the code has it).  In [newGame] the card popped after the deal,
    whose suit becomes the trump suit, is put back with [unshift], at index
    0 of the deck array, the end opposite to the one [pop] draws from.
    Right after setup the next draw therefore yields another card and
    leaves the trump card at the bottom; the trump card stays in the deck
    and is the last card a run of draws yields. *)
Theorem newGame_trump_card (pick : nat → nat) (n : nat) :
  2 ≤ n ≤ 4 →
  ∃ ps1 d1 tc d2 g,
    dealHands pick n = Some (ps1, d1) ∧ pop d1 = Some (tc, d2)
    ∧ newGame pick n = Some g
    ∧ trump g = c_suit tc
    ∧ deck g = tc :: d2
    ∧ length d2 = 35 - 8 * n
    ∧ (tc ∉ d2)
    ∧ last (reverse (deck g)) = Some tc
    ∧ ∃ c d3, pop (deck g) = Some (c, tc :: d3) ∧ c ≠ tc.
Proof.
  intros Hn.
  destruct (newGame_setup pick n) as (ps1 & d1 & tc & d2 & E & Hpop & L & N & P & G); [lia |].
  exists ps1, d1, tc, d2. eexists. split; [done |]. split; [done |].
  split; [exact G |]. simpl.
  assert (Hnd : NoDup (d2 ++ [tc])).
  { pose proof makeDeck_NoDup as Hm. rewrite <- P in Hm.
    by apply NoDup_app in Hm as (_ & _ & Hm). }
  assert (Hnin : tc ∉ d2).
  { apply NoDup_app in Hnd as (_ & Hd & _). intros Hin. apply (Hd tc Hin).
    apply list_elem_of_here. }
  split; [done |]. split; [done |]. split; [done |]. split; [done |].
  split; [by rewrite reverse_cons, last_snoc |].
  destruct (pop_nonempty d2) as (c & d3 & Hp2); [lia |].
  apply pop_Some in Hp2. subst d2. exists c, d3. split; [apply pop_cons_snoc |].
  intros ->. apply Hnin. apply elem_of_app. right. apply list_elem_of_here.
Qed.

Lemma newGame_trump_card_witness :
  2 ≤ 3 ≤ 4
  ∧ ∃ ps1 d1 tc d2 g,
      dealHands keepOrder 3 = Some (ps1, d1) ∧ pop d1 = Some (tc, d2)
      ∧ newGame keepOrder 3 = Some g
      ∧ trump g = c_suit tc
      ∧ deck g = tc :: d2
      ∧ length d2 = 35 - 8 * 3
      ∧ (tc ∉ d2)
      ∧ last (reverse (deck g)) = Some tc
      ∧ ∃ c d3, pop (deck g) = Some (c, tc :: d3) ∧ c ≠ tc.
Proof.
  split; [lia |]. apply (newGame_trump_card keepOrder 3). lia.
Defined.

(** C6 as stated fails: with the deck left in [makeDeck] order and three
    players the trump card is the eight of diamonds; after setup it sits at
    index 0 of the deck and the next draw yields the seven of diamonds. *)
Lemma trump_card_not_next_counterexample :
  ∃ ps1 d1 d2 d',
    dealHands keepOrder 3 = Some (ps1, d1)
    ∧ pop d1 = Some (Card Diamonds R8, d2)
    ∧ newGame keepOrder 3 = Some deal3
    ∧ trump deal3 = Diamonds
    ∧ deck deal3 !! 0 = Some (Card Diamonds R8)
    ∧ length (deck deal3) = 12
    ∧ pop (deck deal3) = Some (Card Diamonds R7, d')
    ∧ Card Diamonds R7 ≠ Card Diamonds R8.
Proof.
  do 4 eexists.
  split; [by vm_compute |]. split; [by vm_compute |]. split; [by vm_compute |].
  split; [done |]. split; [done |]. split; [done |].
  split; [by vm_compute | done].
Qed.

(** ** First attacker *)

Lemma insertBy_Permutation {A} (cmp : A → A → Z) (x : A) (l : list A) :
  insertBy cmp x l ≡ₚ x :: l.
Proof.
  induction l as [|y l IH]; simpl; [done |].
  destruct (cmp x y <=? 0)%Z; [done |]. rewrite IH. apply perm_swap.
Qed.

Lemma sortBy_Permutation {A} (cmp : A → A → Z) (l : list A) : sortBy cmp l ≡ₚ l.
Proof.
  induction l as [|x l IH]; simpl; [done |].
  unfold sortBy in *. simpl. by rewrite insertBy_Permutation, IH.
Qed.

(** The head of a hand sorted by rank has the lowest rank of the hand. *)
Lemma sortBy_byRank_head (l : list card) (c0 : card) (rest : list card) :
  sortBy byRank l = c0 :: rest →
  c0 ∈ l ∧ ∀ c, c ∈ l → (rankValue (c_rank c0) ≤ rankValue (c_rank c))%Z.
Proof.
  revert c0 rest. induction l as [|x l IH]; intros c0 rest; [done |].
  unfold sortBy in *. simpl.
  destruct (foldr (insertBy byRank) [] l) as [|y r] eqn:E.
  - pose proof (sortBy_Permutation byRank l) as P. unfold sortBy in P. rewrite E in P.
    apply Permutation_nil in P. subst l. simpl. intros [= <- <-].
    split; [apply list_elem_of_here |]. intros c Hc.
    apply list_elem_of_singleton in Hc. subst. lia.
  - destruct (IH y r eq_refl) as [Hy Hmin]. simpl.
    destruct (byRank x y <=? 0)%Z eqn:Hc.
    + intros [= <- <-]. apply Z.leb_le in Hc. unfold byRank in Hc.
      split; [apply list_elem_of_here |].
      intros c Hin. apply elem_of_cons in Hin as [-> | Hin]; [lia |].
      specialize (Hmin c Hin). lia.
    + intros [= <- <-]. apply Z.leb_gt in Hc. unfold byRank in Hc.
      split; [by apply list_elem_of_further |].
      intros c Hin. apply elem_of_cons in Hin as [-> | Hin]; [lia |].
      by apply Hmin.
Qed.

Lemma trumps_of_hand (trump : suit) (p : player) (c : card) :
  c ∈ List.filter (fun c => bool_decide (c_suit c = trump)) (hand p) ↔ holdsTrump trump p c.
Proof.
  unfold holdsTrump. rewrite list_elem_of_In, filter_In, bool_decide_eq_true.
  by rewrite list_elem_of_In.
Qed.

Lemma considerPlayer_bestSoFar (trump : suit) (seen : list player) (p : player)
    (best : option (nat * card)) :
  bestSoFar trump seen best →
  bestSoFar trump (seen ++ [p]) (considerPlayer trump best (length seen) p).
Proof.
  intros Hb. unfold considerPlayer.
  destruct (sortBy byRank _) as [|c0 rest] eqn:E.
  - (* no trump in this hand *)
    assert (Hno : ∀ c, ¬ holdsTrump trump p c).
    { intros c Hc. apply trumps_of_hand in Hc.
      rewrite <- (sortBy_Permutation byRank), E in Hc. by apply elem_of_nil in Hc. }
    destruct best as [[pi c]|]; simpl in *.
    + destruct Hb as [(q & Hq & Hc) Hlow]. split.
      * exists q. split; [| done]. by apply lookup_app_l_Some.
      * intros q' c' Hin Hc'. apply elem_of_app in Hin as [Hin | Hin]; [by eapply Hlow |].
        apply list_elem_of_singleton in Hin. subst. by apply Hno in Hc'.
    + intros q c Hin. apply elem_of_app in Hin as [Hin | Hin]; [by apply Hb |].
      apply list_elem_of_singleton in Hin. subst. apply Hno.
  - apply sortBy_byRank_head in E as [Hc0 Hmin].
    apply trumps_of_hand in Hc0.
    assert (Hmin' : ∀ c, holdsTrump trump p c →
                         (rankValue (c_rank c0) ≤ rankValue (c_rank c))%Z).
    { intros c Hc. apply Hmin. by apply trumps_of_hand. }
    assert (Hhere : ∃ q, (seen ++ [p]) !! length seen = Some q ∧ holdsTrump trump q c0).
    { exists p. split; [| done]. by rewrite list_lookup_middle. }
    destruct best as [[pi bc]|]; simpl in *.
    + destruct Hb as [(q & Hq & Hc) Hlow].
      case_bool_decide as Hlt.
      * split; [done |]. intros q' c' Hin Hc'.
        apply elem_of_app in Hin as [Hin | Hin].
        -- specialize (Hlow q' c' Hin Hc'). lia.
        -- apply list_elem_of_singleton in Hin. subst. by apply Hmin'.
      * split.
        -- exists q. split; [| done]. by apply lookup_app_l_Some.
        -- intros q' c' Hin Hc'. apply elem_of_app in Hin as [Hin | Hin]; [by eapply Hlow |].
           apply list_elem_of_singleton in Hin. subst. specialize (Hmin' c' Hc'). lia.
    + split; [done |]. intros q' c' Hin Hc'.
      apply elem_of_app in Hin as [Hin | Hin]; [by apply Hb in Hc' |].
      apply list_elem_of_singleton in Hin. subst. by apply Hmin'.
Qed.

Lemma forEachPlayer_bestSoFar (trump : suit) (seen ps : list player)
    (best : option (nat * card)) :
  bestSoFar trump seen best →
  bestSoFar trump (seen ++ ps) (forEachPlayer trump (length seen) ps best).
Proof.
  revert seen best. induction ps as [|p ps IH]; intros seen best Hb; simpl.
  - by rewrite app_nil_r.
  - apply (considerPlayer_bestSoFar _ _ p) in Hb.
    apply IH in Hb. rewrite length_app, <- app_assoc in Hb. simpl in Hb.
    by rewrite Nat.add_1_r in Hb.
Qed.

(** C9. The first attacker is a function of the hands and the trump suit
    alone.  If some player holds a trump, the player at the returned index
    holds a trump whose rank is lowest among all trumps in all hands; if
    nobody holds a trump the result is player 0.  [newGame] takes its
    attacker from this function and puts the defender right after. *)
Theorem findFirstAttacker_spec (ps : list player) (t : suit) :
  ((∃ q c, q ∈ ps ∧ holdsTrump t q c) →
     ∃ p c, ps !! findFirstAttacker ps t = Some p
            ∧ holdsTrump t p c ∧ lowestTrump t ps c)
  ∧ ((∀ q c, q ∈ ps → ¬ holdsTrump t q c) → findFirstAttacker ps t = 0)
  ∧ (∀ pick n g, newGame pick n = Some g →
       attacker g = findFirstAttacker (players g) (trump g)
       ∧ defender g = (attacker g + 1) mod n).
Proof.
  assert (Hnew : ∀ pick n g, newGame pick n = Some g →
       attacker g = findFirstAttacker (players g) (trump g)
       ∧ defender g = (attacker g + 1) mod n).
  { intros pick n g Hg. unfold newGame in Hg.
    destruct (dealHands pick n) as [[ps1 d1]|]; [| done]. simpl in Hg.
    destruct (pop d1) as [[tc d2]|]; [| done]. by injection Hg as <-. }
  assert (Hb0 : bestSoFar t [] None).
  { intros q c Hq. by apply elem_of_nil in Hq. }
  apply (forEachPlayer_bestSoFar t [] ps None) in Hb0. simpl in Hb0.
  unfold findFirstAttacker.
  destruct (forEachPlayer t 0 ps None) as [[pi c]|]; simpl in Hb0.
  - destruct Hb0 as [(p & Hp & Hc) Hlow].
    split; [| split; [| done]].
    + intros _. by exists p, c.
    + intros Hno. apply list_elem_of_lookup_2 in Hp. by apply Hno in Hc.
  - split; [| split; [| done]].
    + intros (q & c & Hq & Hc). by apply Hb0 in Hc.
    + done.
Qed.

Lemma findFirstAttacker_spec_witness :
  findFirstAttacker (players deal3) Diamonds = 2
  ∧ ∃ p c, players deal3 !! 2 = Some p
           ∧ holdsTrump Diamonds p c ∧ lowestTrump Diamonds (players deal3) c.
Proof.
  split; [reflexivity |].
  apply (proj1 (findFirstAttacker_spec (players deal3) Diamonds)).
  exists (Player 2 "Player 3"
            [Card Spades RQ; Card Spades R9; Card Spades R6; Card Hearts RQ;
             Card Hearts R9; Card Hearts R6; Card Diamonds RQ; Card Diamonds R9]),
         (Card Diamonds R9).
  split; [by apply (list_elem_of_lookup_2 _ 2) |].
  split; [| done]. apply (bool_decide_unpack _). by vm_compute.
Defined.

(** ** [maxAdds] *)

Lemma sameButMaxAdds_refl (s : GameState) : sameButMaxAdds s s.
Proof. by repeat split. Qed.

Lemma sameButMaxAdds_setMaxAdds (s1 s2 : GameState) :
  sameButMaxAdds s1 s2 ↔ s2 = setMaxAdds (maxAdds s2) s1.
Proof.
  destruct s1, s2. unfold sameButMaxAdds, setMaxAdds. simpl. split.
  - by intros (-> & -> & -> & -> & -> & -> & ->).
  - by intros [= -> -> -> -> -> -> ->].
Qed.

Lemma finish_setMaxAdds (m : Z) (s : GameState) :
  sameButMaxAdds (snd (checkForFinish (setPhase PAttack (drawToFill s))))
                 (snd (checkForFinish (setPhase PAttack (drawToFill (setMaxAdds m s))))).
Proof.
  rewrite !drawToFill_refillSpec. unfold checkForFinish, finishedPlayers. simpl.
  destruct (0 <? _); by repeat split.
Qed.

(** C10.  No action reads [maxAdds]: on two states that differ at most in
    [maxAdds] every action takes the same decision and, when accepted,
    yields states that again differ at most in [maxAdds].  An attack
    recomputes the field, so its two results are equal; an add-attack
    copies it and decides without it. *)
Theorem maxAdds_write_only (g1 g2 : GameState) (a : action) :
  sameButMaxAdds g1 g2 →
  sameOutcomeButMaxAdds (handle g1 a) (handle g2 a)
  ∧ (∀ p c, playAttack g1 p c = playAttack g2 p c)
  ∧ (∀ p c s2, addAttack g2 p c = SetGame s2 →
       addAttack g1 p c = SetGame (setMaxAdds (maxAdds g1) s2)).
Proof.
  intros H. apply sameButMaxAdds_setMaxAdds in H. revert H.
  generalize (maxAdds g2). intros m ->.
  split; [| split].
  - destruct a as [p c | p i c | p c |]; simpl.
    + unfold playAttack. simpl. repeat case_match; simpl; by repeat split.
    + unfold playDefend. simpl. repeat case_match; simpl; try done.
      all: first [ by repeat split
                 | apply (finish_setMaxAdds m
                     (Game _ (deck g1) (trump g1) [] (defender g1) _ PCleanup (maxAdds g1))) ].
    + unfold addAttack. simpl. repeat case_match; simpl; by repeat split.
    + unfold defenderTakes. simpl. repeat case_match; simpl; try done.
      apply (finish_setMaxAdds m
          (Game _ (deck g1) (trump g1) [] (attacker g1) _ (phase_ g1) (maxAdds g1))).
  - intros p c. unfold playAttack. simpl. by repeat case_match.
  - intros p c s2. unfold addAttack. simpl. repeat case_match; simpl; try done.
    all: by intros [= <-].
Qed.

Lemma maxAdds_write_only_witness :
  sameButMaxAdds deal3_attacked (setMaxAdds 5 deal3_attacked)
  ∧ sameOutcomeButMaxAdds
      (handle deal3_attacked (AddAttack 2 (Card Hearts RQ)))
      (handle (setMaxAdds 5 deal3_attacked) (AddAttack 2 (Card Hearts RQ)))
  ∧ (∀ p c, playAttack deal3_attacked p c = playAttack (setMaxAdds 5 deal3_attacked) p c)
  ∧ (∀ p c s2, addAttack (setMaxAdds 5 deal3_attacked) p c = SetGame s2 →
       addAttack deal3_attacked p c = SetGame (setMaxAdds (maxAdds deal3_attacked) s2)).
Proof.
  assert (H : sameButMaxAdds deal3_attacked (setMaxAdds 5 deal3_attacked))
    by by repeat split.
  split; [exact H |].
  exact (maxAdds_write_only _ _ (AddAttack 2 (Card Hearts RQ)) H).
Defined.

(** ** Runs *)

Lemma reachable_play (l : list action) (g g' : GameState) (pile : list card) :
  reachable g pile → play g l = Some g' → ∃ pile', reachable g' pile'.
Proof.
  revert g pile. induction l as [|a l IH]; intros g pile Hr; simpl.
  - intros [= <-]. eauto.
  - destruct (handle g a) as [s | | |] eqn:E; try done.
    apply (IH s (pile ++ discarded g a)). by eapply reach_step.
Qed.

(** ** Hands after the deal *)

Lemma dealOne_sizes (ps ps' : list player) (d d' : list card) (p : nat) :
  dealOne (Some (ps, d)) p = Some (ps', d') →
  handSizes ps' = alter S p (handSizes ps).
Proof.
  unfold dealOne. simpl. destruct (pop d) as [[c d'']|]; [| done]. simpl.
  intros [= <- <-]. unfold handSizes. apply list_fmap_alter.
  apply Forall_forall. intros q _. simpl. rewrite length_app. simpl. lia.
Qed.

Lemma foldl_dealOne_sizes (l : list nat) (ps ps' : list player) (d d' : list card) :
  foldl dealOne (Some (ps, d)) l = Some (ps', d') →
  handSizes ps' = foldl (fun acc p => alter S p acc) (handSizes ps) l.
Proof.
  revert ps d. induction l as [|p l IH]; intros ps d; cbn [foldl].
  - by intros [= <- <-].
  - destruct (dealOne (Some (ps, d)) p) as [[ps1 d1]|] eqn:E.
    + intros H. rewrite (IH _ _ H). by rewrite (dealOne_sizes _ _ _ _ _ E).
    + by rewrite foldl_dealOne_None.
Qed.

Lemma bump_each (l1 l2 : list nat) :
  foldl (fun acc p => alter S p acc) (l1 ++ l2) (seq (length l1) (length l2))
  = l1 ++ (S <$> l2).
Proof.
  revert l1. induction l2 as [|x l2 IH]; intros l1; [done |].
  cbn [length seq foldl].
  rewrite alter_app_r_alt by lia. rewrite Nat.sub_diag. simpl.
  rewrite (cons_middle (S x) l1 l2), app_assoc.
  replace (S (length l1)) with (length (l1 ++ [S x])) by (rewrite length_app; simpl; lia).
  rewrite IH. by rewrite <- app_assoc.
Qed.

Lemma dealRound_sizes (n i : nat) (ps ps' : list player) (d d' : list card) :
  length ps = n → dealRound n (Some (ps, d)) i = Some (ps', d') →
  handSizes ps' = S <$> handSizes ps.
Proof.
  intros Hn H. unfold dealRound in H. rewrite (foldl_dealOne_sizes _ _ _ _ _ H).
  assert (Hl : length (handSizes ps) = n) by (unfold handSizes; by rewrite length_fmap).
  rewrite <- Hl. apply (bump_each [] (handSizes ps)).
Qed.

Lemma dealRound_None (n i : nat) : dealRound n None i = None.
Proof. apply foldl_dealOne_None. Qed.

Lemma foldl_dealRound_None (n : nat) (l : list nat) : foldl (dealRound n) None l = None.
Proof. induction l as [|i l IH]; [done |]. cbn [foldl]. by rewrite dealRound_None. Qed.

Lemma dealRound_length (n i : nat) (ps ps' : list player) (d d' : list card) :
  dealRound n (Some (ps, d)) i = Some (ps', d') → length ps' = length ps.
Proof.
  intros H. unfold dealRound in H. apply foldl_dealOne_sizes in H.
  apply (f_equal length) in H. unfold handSizes in H. rewrite length_fmap in H.
  rewrite H. clear H. generalize (seq 0 n). intros l.
  assert (G : ∀ acc : list nat, length (foldl (fun acc p => alter S p acc) acc l) = length acc).
  { induction l as [|p l IH]; intros acc; [done |]. cbn [foldl].
    by rewrite IH, length_alter. }
  by rewrite G, length_fmap.
Qed.

Lemma foldl_dealRound_length (n : nat) (l : list nat) (ps ps' : list player) (d d' : list card) :
  foldl (dealRound n) (Some (ps, d)) l = Some (ps', d') → length ps' = length ps.
Proof.
  revert ps d. induction l as [|i l IH]; intros ps d; cbn [foldl]; [by intros [= <- <-] |].
  destruct (dealRound n (Some (ps, d)) i) as [[ps2 d2]|] eqn:E.
  - intros H. rewrite (IH _ _ H). by eapply dealRound_length.
  - by rewrite foldl_dealRound_None.
Qed.

Lemma foldl_dealRound_sizes (n m : nat) (l : list nat) (ps ps' : list player) (d d' : list card) :
  length ps = n → Forall (fun k => k = m) (handSizes ps) →
  foldl (dealRound n) (Some (ps, d)) l = Some (ps', d') →
  Forall (fun k => k = length l + m) (handSizes ps').
Proof.
  revert m ps d. induction l as [|i l IH]; intros m ps d Hn Hm; cbn [foldl].
  - by intros [= <- <-].
  - destruct (dealRound n (Some (ps, d)) i) as [[ps1 d1]|] eqn:E.
    + intros H. simpl. replace (S (length l + m)) with (length l + S m) by lia.
      apply (IH (S m) ps1 d1); [| | done].
      * rewrite <- Hn. by eapply dealRound_length.
      * rewrite (dealRound_sizes _ _ _ _ _ _ Hn E). apply Forall_fmap.
        eapply Forall_impl; [exact Hm |]. simpl. by intros k ->.
    + by rewrite foldl_dealRound_None.
Qed.

(** Every player is dealt 8 cards. *)
Lemma newGame_hands (pick : nat → nat) (n : nat) (g : GameState) :
  newGame pick n = Some g →
  length (players g) = n ∧ Forall (fun p => length (hand p) = 8) (players g).
Proof.
  unfold newGame, dealHands, dealFrom. generalize (shuffle pick makeDeck).
  intros deck0 H.
  destruct (foldl (dealRound n) _ (seq 0 8)) as [[ps1 d1]|] eqn:E; [| done].
  simpl in H. destruct (pop d1) as [[tc d2]|]; [| done]. injection H as <-. simpl.
  assert (L0 : length (map (fun i => Player i ("Player " +:+ pretty (i + 1)) []) (seq 0 n)) = n)
    by by rewrite length_map, length_seq.
  split.
  - by rewrite (foldl_dealRound_length _ _ _ _ _ _ E).
  - pose proof (foldl_dealRound_sizes n 0 (seq 0 8) _ ps1 deck0 d1 L0) as Hs.
    rewrite length_seq in Hs. unfold handSizes in Hs.
    assert (H8 : Forall (fun k => k = 8 + 0) ((length ∘ hand) <$> ps1)).
    { apply Hs; [| done]. apply Forall_fmap, Forall_fmap. by apply Forall_forall. }
    apply Forall_fmap in H8. eapply Forall_impl; [exact H8 |]. simpl. lia.
Qed.

(** ** Between rounds *)

Lemma withHand_same (p : player) (f : list card → list card) :
  f (hand p) = hand p → withHand f p = p.
Proof. destruct p. unfold withHand. simpl. by intros ->. Qed.

Lemma refillPlayer_topped (st : list player * list card) (i : nat) :
  topped st i → refillPlayer st i = st.
Proof.
  intros Ht. unfold refillPlayer. destruct (st.1 !! i) as [p|] eqn:Hp; [| done].
  rewrite drawUpTo8_stop by by apply Ht.
  rewrite withHand_same by done. rewrite list_insert_id by done. by destruct st.
Qed.

Lemma foldl_refillPlayer_topped (order : list nat) (st : list player * list card) :
  (∀ i, i ∈ order → topped st i) → foldl refillPlayer st order = st.
Proof.
  induction order as [|i order IH]; intros H; [done |]. cbn [foldl].
  rewrite refillPlayer_topped by (apply H, list_elem_of_here).
  apply IH. intros j Hj. by apply H, list_elem_of_further.
Qed.

Lemma drawToFill_topped (g : GameState) :
  (∀ i, i < length (players g) → topped (players g, deck g) i) → drawToFill g = g.
Proof.
  intros H. rewrite drawToFill_refillSpec. unfold refillSpec.
  rewrite foldl_refillPlayer_topped; [by destruct g |].
  intros i Hi. apply H. unfold refillOrder in Hi.
  apply list_elem_of_fmap in Hi as (k & -> & Hk). apply elem_of_seq in Hk.
  apply Nat.mod_upper_bound. lia.
Qed.

Lemma drawToFill_frame (s : GameState) :
  (players (drawToFill s), deck (drawToFill s))
    = refillSpec (attacker s) (players s) (deck s)
  ∧ (trump (drawToFill s), table (drawToFill s), attacker (drawToFill s),
     defender (drawToFill s), phase_ (drawToFill s), maxAdds (drawToFill s))
      = (trump s, table s, attacker s, defender s, phase_ s, maxAdds s)
  ∧ length (players (drawToFill s)) = length (players s)
  ∧ deck (drawToFill s) `prefix_of` deck s.
Proof.
  rewrite drawToFill_refillSpec. simpl.
  destruct (refillSpec_refilled (attacker s) (players s) (deck s)) as [(L & D & _) _].
  split; [by destruct (refillSpec _ _ _) |]. by repeat split.
Qed.

Lemma settled_after (s : GameState) :
  table s = [] → defender s = (attacker s + 1) mod length (players s) →
  settled (snd (checkForFinish (setPhase PAttack (drawToFill s)))).
Proof.
  intros Ht Hd.
  destruct (checkForFinish_after (drawToFill s)) as (Hp & Hk & Htb & Ha & Hdf & Hf & Hor).
  destruct (drawToFill_frame s) as (Hps & Hrest & Hlen & _).
  cbv zeta in Hps, Hrest, Hlen. injection Hrest as Et Etb Eat Edf _ _.
  unfold settled. rewrite Hp, Hk, Htb, Ha, Hdf, Hlen, Etb, Eat, Edf.
  split; [done |]. split; [done |]. split; [| split].
  - intros i Hi. rewrite Hps. by apply refillSpec_refilled.
  - rewrite Hf. unfold someoneOut. by rewrite Hp, Hk.
  - destruct Hor; auto.
Qed.

Lemma ends_round_settled (g g' : GameState) (a : action) :
  handle g a = SetGame g' → endsRound g a = true →
  settled g' ∧ length (players g') = length (players g).
Proof.
  assert (Hlen : ∀ s, length (players (snd (checkForFinish (setPhase PAttack (drawToFill s)))))
                      = length (players s)).
  { intros s. destruct (checkForFinish_after (drawToFill s)) as (-> & _).
    by destruct (drawToFill_frame s) as (_ & _ & -> & _). }
  destruct a as [p c | p i c | p c |]; simpl; try done.
  - unfold playDefend, resolves. destruct (negb _); [done |].
    destruct (table g !! i) as [tp|]; [| done].
    destruct (isDefended tp); [done |].
    destruct (players g !! p) as [pl|]; [| done].
    destruct (findIndex _ _) as [idx|]; [| done].
    destruct (negb _); [done |]. simpl.
    intros H E. rewrite E in H. injection H as <-.
    split; [by apply settled_after |]. rewrite Hlen. simpl. apply length_alter.
  - unfold defenderTakes. destruct (players g !! defender g); [| done].
    intros [= <-] _.
    split; [by apply settled_after |]. rewrite Hlen. simpl. apply length_alter.
Qed.

Lemma handle_wellPhased (g g' : GameState) (a : action) :
  wellPhased g → handle g a = SetGame g' → wellPhased g'.
Proof.
  intros [Hn Hph] H.
  destruct (endsRound g a) eqn:E.
  { destruct (ends_round_settled g g' a H E) as [Hs Hl].
    split; [by rewrite Hl | by right]. }
  destruct a as [p c | p i c | p c |]; cbn [handle endsRound] in H, E; [| | | done].
  - unfold playAttack in H. destruct (negb _); [done |].
    destruct (players g !! p); [| done]. destruct (findIndex _ _); [| done].
    destruct (_ !! defender g); [| done]. injection H as <-.
    unfold wellPhased. simpl. split; [by rewrite length_alter | by left].
  - unfold playDefend, resolves in H, E. destruct (negb _); [done |].
    destruct (table g !! i) as [tp|] eqn:Htp; [| done].
    destruct (isDefended tp); [done |].
    destruct (players g !! p); [| done]. destruct (findIndex _ _); [| done].
    destruct (negb _); [done |]. cbv zeta in H. rewrite E in H. injection H as <-.
    unfold wellPhased. simpl. split; [by rewrite length_alter |]. left.
    destruct Hph as [Hph | (Ht & _)]; [done |]. by rewrite Ht in Htp.
  - unfold addAttack in H. case_bool_decide as Hd; [| done]. cbn [negb] in H.
    destruct (players g !! p); [| done]. destruct (findIndex _ _); [| done].
    destruct (negb _); [done |]. destruct (8 <=? _); [done |].
    destruct (_ !! defender g); [| done]. cbv zeta in H.
    assert (phase_ g' = PDefend ∧ length (players g') = length (players g)) as [Hp Hl].
    { destruct (_ <=? _); injection H as <-; simpl; by rewrite length_alter. }
    split; [by rewrite Hl | by left].
Qed.

Lemma reachable_wellPhased (g : GameState) (pile : list card) :
  reachable g pile → wellPhased g.
Proof.
  induction 1 as [pick n g Hn Hg | g pile a g' _ IH Ha].
  - destruct (newGame_hands pick n g Hg) as [Hl H8].
    destruct (newGame_setup pick n) as (ps1 & d1 & tc & d2 & _ & _ & _ & Hd2 & _ & E); [lia |].
    rewrite E in Hg. injection Hg as <-. cbn [players] in Hl, H8.
    unfold wellPhased, settled, someoneOut. cbn [players deck table attacker defender phase_].
    split; [lia |]. right.
    split; [done |]. split; [by rewrite Hl |]. split; [| split; [| by left]].
    + intros i Hi p Hp. left. cbn [fst] in Hp.
      rewrite Forall_forall in H8. rewrite (H8 p); [done |].
      by eapply list_elem_of_lookup_2.
    + split; [done |]. by intros [_ ?].
  - by eapply handle_wellPhased.
Qed.

(** Outside the Defend phase a take finds nothing to move, to reassign or
    to draw: on every state of a game it sets the state it found. *)
Lemma take_outside_defend_same_state (g : GameState) (pile : list card) :
  reachable g pile → phase_ g ≠ PDefend → defenderTakes g = SetGame g.
Proof.
  intros Hr Hph. destruct (reachable_wellPhased g pile Hr) as [Hn [? | Hs]]; [done |].
  destruct Hs as (Ht & Hd & Htop & Hf & Hor).
  unfold defenderTakes. rewrite Ht. simpl.
  destruct (players g !! defender g) as [dp|] eqn:Hdp.
  2:{ apply lookup_ge_None in Hdp. rewrite Hd in Hdp.
      pose proof (Nat.mod_upper_bound (attacker g + 1) (length (players g))). lia. }
  rewrite list_alter_id by (intros q; apply withHand_same, app_nil_r).
  rewrite <- Hd, <- Ht.
  replace (Game (players g) (deck g) (trump g) (table g) (attacker g) (defender g)
                (phase_ g) (maxAdds g)) with g by by destruct g.
  rewrite drawToFill_topped by done.
  pose proof (finishedPlayers_nonempty (setPhase PAttack g)) as Hfp.
  unfold checkForFinish. destruct (0 <? _) eqn:E; simpl.
  - assert (Hout : someoneOut g) by by apply Hfp.
    apply Hf in Hout. f_equal. destruct g. simpl in *. by subst.
  - destruct Hor as [Hatt | Hfin].
    + f_equal. destruct g. simpl in *. by subst.
    + apply Hf in Hfin. apply Hfp in Hfin. done.
Qed.

(** ** The handlers called on their own

    The component calls [playAttack] and [addAttack] from [handleClick]
    only, which tests the phase and the role of the seat first.  The two
    handlers leave these tests to it: what they would answer to a call
    that [handleClick] never makes is recorded here. *)

(** [playAttack] tests the actor and the card but not the phase: called in
    the Defend phase, with the queen of spades already led, it would accept
    the attacker's nine of spades as a second lead. *)
Example attack_outside_attack_phase :
  reachable deal3_attacked []
  ∧ phase_ deal3_attacked = PDefend
  ∧ attacker deal3_attacked = 2
  ∧ ∃ s, playAttack deal3_attacked 2 (Card Spades R9) = SetGame s
         ∧ s ≠ deal3_attacked
         ∧ attack <$> table s = [Card Spades RQ; Card Spades R9]
         ∧ (length ∘ hand) <$> players s = [8; 8; 6].
Proof.
  split; [apply deal3_attacked_reachable |]. split; [done |]. split; [done |].
  eexists. split; [by vm_compute |]. split; [| by split].
  intros E. by apply (f_equal (length ∘ table)) in E.
Qed.

(** [defenderTakes] has no phase test either: right after the deal, in the
    Attack phase, it runs the whole take path and calls [setGame], with a
    state equal to the one before (as it does on every state of a game
    outside the Defend phase, see [take_outside_defend_same_state]). *)
Example take_outside_defend_phase :
  phase_ deal3 = PAttack ∧ defenderTakes deal3 = SetGame deal3.
Proof. split; [done | by vm_compute]. Qed.

(** [addAttack] never looks at [attacker]: called with player 4 (index 3)
    attacking player 1 (index 0), it would accept the seven of diamonds of
    player 2 (index 1), who is neither. *)
Example addAttack_by_bystander :
  (∃ pile, reachable deal4_attacked pile)
  ∧ phase_ deal4_attacked = PDefend
  ∧ attacker deal4_attacked = 3
  ∧ defender deal4_attacked = 0
  ∧ ∃ s, addAttack deal4_attacked 1 (Card Diamonds R7) = SetGame s
         ∧ table s = [Pair (Card Spades R7) None 3; Pair (Card Diamonds R7) None 1]
         ∧ (length ∘ hand) <$> players s = [8; 7; 8; 7].
Proof.
  split.
  { exists ([] ++ discarded deal4 (Attack 3 (Card Spades R7))).
    apply (reach_step deal4 [] (Attack 3 (Card Spades R7))); [| by vm_compute].
    apply (reach_new keepOrder 4); [lia | by vm_compute]. }
  split; [done |]. split; [done |]. split; [done |].
  eexists. split; [by vm_compute |]. by split.
Qed.

(** ** Where the code departs from the claims *)

(** C5.  The test "also can't exceed defender hand size" in [addAttack]
    has an empty body.  In the game [riggedMoves] the defender holds three
    cards against three undefended sixes; the fourth six is accepted. *)
Theorem addAttack_beyond_defender_hand :
  newGame rigged 4 = Some riggedDeal
  ∧ play riggedDeal riggedMoves = Some threeSixes
  ∧ (∃ pile, reachable threeSixes pile)
  ∧ phase_ threeSixes = PDefend
  ∧ attacker threeSixes = 0
  ∧ defenderHandSize threeSixes = 3
  ∧ undefended (table threeSixes) = 3
  ∧ addAttack threeSixes 0 (Card Clubs R6) = SetGame fourSixes
  ∧ defenderHandSize fourSixes = 3
  ∧ undefended (table fourSixes) = 4.
Proof.
  assert (H0 : newGame rigged 4 = Some riggedDeal) by by vm_compute.
  assert (H1 : play riggedDeal riggedMoves = Some threeSixes) by by vm_compute.
  split; [done |]. split; [done |]. split.
  { apply (reachable_play riggedMoves riggedDeal threeSixes []); [| done].
    apply (reach_new rigged 4); [lia | done]. }
  split; [done |]. split; [done |]. split; [done |]. split; [done |].
  split; [by vm_compute |]. by split.
Qed.

(** * Further properties of the engine *)

(** ** Cards, ranks and the deck *)

(** X1.  [makeDeck] builds 36 cards, one for every suit and rank, with no
    card and no [id] twice, suits in the order of [SUITS] and within a suit
    ranks in the order of [RANKS]. *)
Theorem makeDeck_complete :
  length makeDeck = 36
  ∧ NoDup makeDeck
  ∧ NoDup (c_id <$> makeDeck)
  ∧ (∀ c : card, c ∈ makeDeck)
  ∧ ∀ i j s r, SUITS !! i = Some s → RANKS !! j = Some r →
      makeDeck !! (9 * i + j) = Some (Card s r).
Proof.
  split; [reflexivity |]. split; [apply makeDeck_NoDup |]. split; [| split].
  - apply (bool_decide_unpack _). by vm_compute.
  - intros [[] []]; apply (bool_decide_unpack _); by vm_compute.
  - intros i j s r Hi Hj.
    assert (i < 4) by (apply lookup_lt_Some in Hi; simpl in Hi; lia).
    assert (j < 9) by (apply lookup_lt_Some in Hj; simpl in Hj; lia).
    destruct i as [|[|[|[|]]]]; [| | | | lia];
      destruct j as [|[|[|[|[|[|[|[|[|]]]]]]]]]; try lia;
      simpl in Hi, Hj; injection Hi as <-; injection Hj as <-; reflexivity.
Qed.

(** X2.  The text [`${c.rank}${c.suit}`] that serves as [id] and as
    [cardString] identifies the card: two cards print alike exactly when
    they have the same suit and the same rank. *)
Theorem cardString_inj (c d : card) :
  cardString c = cardString d ↔ c_suit c = c_suit d ∧ c_rank c = c_rank d.
Proof.
  split.
  - intros H. apply c_id_inj in H. by subst.
  - destruct c, d. simpl. by intros [-> ->].
Qed.

(** X3.  [rankValue] is the position of the rank in [RANKS]: looking that
    position up gives the rank back, and the rank found at a position has
    that position as value.  So ranks compare as [RANKS] lists them, low to
    high, and [indexOf] never answers -1 on a rank. *)
Theorem rankValue_position (r : rank) :
  (0 ≤ rankValue r < 9)%Z
  ∧ RANKS !! Z.to_nat (rankValue r) = Some r
  ∧ ∀ i, RANKS !! i = Some r → rankValue r = Z.of_nat i.
Proof.
  split; [| split].
  - destruct r; vm_compute; split; discriminate || reflexivity.
  - by destruct r.
  - intros i Hi. assert (i < 9) by (apply lookup_lt_Some in Hi; simpl in Hi; lia).
    destruct i as [|[|[|[|[|[|[|[|[|]]]]]]]]]; try lia;
      simpl in Hi; injection Hi as <-; reflexivity.
Qed.

(** ** The beat rule as an order *)

Lemma canBeat_true (a d : card) (t : suit) :
  canBeat a (Some d) t = true ↔
    (c_suit a = c_suit d ∧ (rankValue (c_rank a) < rankValue (c_rank d))%Z)
    ∨ (c_suit a ≠ c_suit d ∧ c_suit d = t).
Proof.
  unfold canBeat. case_bool_decide as Hs; rewrite bool_decide_eq_true.
  - split; [intros; left; split; [done | lia] |].
    intros [[_ H] | [H _]]; [lia | done].
  - split; [by right |]. intros [[H _] | [_ H]]; done.
Qed.

(** X4.  For a fixed trump suit "beats" is a strict partial order on cards:
    no card beats itself, two cards never beat each other, and a card that
    beats a card beating a third beats the third.  The empty defence
    ([null]) beats nothing. *)
Theorem canBeat_strict_order (t : suit) :
  (∀ a, canBeat a None t = false)
  ∧ (∀ a, canBeat a (Some a) t = false)
  ∧ (∀ a d, canBeat a (Some d) t = true → canBeat d (Some a) t = false)
  ∧ (∀ a b c, canBeat a (Some b) t = true → canBeat b (Some c) t = true →
       canBeat a (Some c) t = true).
Proof.
  split; [done |]. split; [| split].
  - intros a. apply not_true_iff_false. rewrite canBeat_true.
    intros [[_ H] | [H _]]; [lia | done].
  - intros a d H. apply not_true_iff_false. rewrite canBeat_true in *.
    intros [[E1 H1] | [E1 H1]]; destruct H as [[E2 H2] | [E2 H2]];
      try lia; congruence.
  - intros a b c. rewrite !canBeat_true.
    intros [[E1 H1] | [E1 H1]] [[E2 H2] | [E2 H2]].
    + left. split; [congruence | lia].
    + right. split; [congruence | done].
    + right. split; [congruence | congruence].
    + congruence.
Qed.

(** X5.  A trump beats every card of another suit whatever the ranks, a
    card of a plain suit never beats a trump, and nothing beats the ace of
    trumps. *)
Theorem canBeat_trump (t : suit) (a d : card) :
  (c_suit d = t → c_suit a ≠ t → canBeat a (Some d) t = true)
  ∧ (c_suit a = t → c_suit d ≠ t → canBeat a (Some d) t = false)
  ∧ (a = Card t RA → canBeat a (Some d) t = false).
Proof.
  split; [| split].
  - intros Hd Ha. apply canBeat_true. right. split; [congruence | done].
  - intros Ha Hd. apply not_true_iff_false. rewrite canBeat_true.
    intros [[E _] | [_ E]]; congruence.
  - intros ->. apply not_true_iff_false. rewrite canBeat_true. simpl.
    intros [[_ H] | [H1 H2]]; [| congruence].
    pose proof (rankValue_range (c_rank d)). change (rankValue RA) with 8%Z in H. lia.
Qed.

(** ** The activity log *)

Lemma take_app_take {A} (n : nat) (l k : list A) :
  take n (l ++ take n k) = take n (l ++ k).
Proof. rewrite !take_app, take_take. f_equal. f_equal. lia. Qed.

Lemma foldl_log (msgs : list string) (L : list string) :
  length L ≤ 200 →
  foldl (fun L text => log text L) L msgs = take 200 (reverse msgs ++ L).
Proof.
  revert L. induction msgs as [|m msgs IH]; intros L HL; cbn [foldl].
  - simpl. by rewrite take_ge.
  - rewrite IH by (unfold log; rewrite length_take; apply Nat.le_min_l).
    unfold log. rewrite take_app_take. by rewrite reverse_cons, <- app_assoc.
Qed.

(** X6.  However many messages are logged after [setLogs([])], the log
    holds the latest 200 at most, newest first: it is the first 200 entries
    of the messages in reverse order.  One more message always goes to the
    front and pushes out the entry at position 200, if any. *)
Theorem log_newest_first (msgs : list string) :
  foldl (fun L text => log text L) [] msgs = take 200 (reverse msgs)
  ∧ length (foldl (fun L text => log text L) [] msgs) = length msgs `min` 200
  ∧ ∀ text L, head (log text L) = Some text
              ∧ length (log text L) = S (length L) `min` 200
              ∧ log text L = text :: take 199 L.
Proof.
  rewrite foldl_log by (simpl; lia). rewrite app_nil_r.
  split; [done |]. split.
  - rewrite length_take, length_reverse. lia.
  - intros text L. unfold log. split; [done |]. split; [| done].
    rewrite length_take. cbn [length]. lia.
Qed.

(** ** Shuffle *)

(** X7.  [shuffle] returns a rearrangement of its argument, of the same
    length, whatever the random draws; an array of at most one element
    comes back as it is. *)
Theorem shuffle_rearranges {A} (pick : nat → nat) (arr : list A) :
  shuffle pick arr ≡ₚ arr
  ∧ length (shuffle pick arr) = length arr
  ∧ (∀ x, x ∈ shuffle pick arr ↔ x ∈ arr)
  ∧ (length arr ≤ 1 → shuffle pick arr = arr).
Proof.
  pose proof (shuffle_Permutation pick arr) as P.
  split; [done |]. split; [by rewrite P |]. split; [intros x; by rewrite P |].
  intros H. unfold shuffle. by replace (length arr - 1) with 0 by lia.
Qed.

Lemma shuffle_rearranges_witness :
  length [Card Clubs R6] ≤ 1
  ∧ shuffle keepOrder [Card Clubs R6] = [Card Clubs R6].
Proof.
  split; [simpl; lia |].
  apply (shuffle_rearranges keepOrder [Card Clubs R6]). simpl. lia.
Defined.

Lemma swap_length {A} (a : list A) (i j : nat) : length (swap a i j) = length a.
Proof. by rewrite (Permutation_length (swap_Permutation a i j)). Qed.

Lemma swap_app_l {A} (l k : list A) (i j : nat) :
  i < length l → j < length l → swap (l ++ k) i j = swap l i j ++ k.
Proof.
  intros Hi Hj. unfold swap. rewrite !lookup_app_l by done.
  destruct (l !! i) as [x|] eqn:Ei; [| by apply lookup_ge_None in Ei; lia].
  destruct (l !! j) as [y|] eqn:Ej; [| by apply lookup_ge_None in Ej; lia].
  rewrite insert_app_l by done. by rewrite insert_app_l by by rewrite length_insert.
Qed.

Lemma shuffleLoop_app {A} (pick : nat → nat) (i : nat) (l k : list A) :
  i < length l → shuffleLoop pick i (l ++ k) = shuffleLoop pick i l ++ k.
Proof.
  revert l. induction i as [|i IH]; intros l Hi; [done |]. cbn [shuffleLoop].
  assert (Hj : pick (S i) mod (S i + 1) < length l).
  { pose proof (Nat.mod_upper_bound (pick (S i)) (S i + 1)). lia. }
  rewrite swap_app_l by done. apply IH. rewrite swap_length. lia.
Qed.

Lemma shuffleLoop_ext {A} (pick pick' : nat → nat) (i : nat) (a : list A) :
  (∀ k, 1 ≤ k ≤ i → pick k = pick' k) →
  shuffleLoop pick i a = shuffleLoop pick' i a.
Proof.
  revert a. induction i as [|i IH]; intros a H; [done |]. cbn [shuffleLoop].
  rewrite (H (S i)) by lia. apply IH. intros k Hk. apply H. lia.
Qed.

Lemma swap_lookup_l {A} (a : list A) (i j : nat) (x : A) :
  i < length a → a !! j = Some x → swap a i j !! i = Some x.
Proof.
  intros Hi Hj. unfold swap.
  destruct (a !! i) as [y|] eqn:Ei; [| by apply lookup_ge_None in Ei; lia].
  rewrite Hj. destruct (decide (i = j)) as [-> | Hne].
  - rewrite list_lookup_insert_eq by (rewrite length_insert; by eapply lookup_lt_Some).
    congruence.
  - rewrite list_lookup_insert_ne by done. by rewrite list_lookup_insert_eq.
Qed.

Lemma shuffleLoop_reaches {A} (n : nat) (a target : list A) :
  length a = n → target ≡ₚ a → ∃ pick, shuffleLoop pick (n - 1) a = target.
Proof.
  revert a target. induction n as [|n IH]; intros a target Hl P.
  { destruct a; [| done]. apply Permutation_nil_r in P. subst. by exists (fun _ => 0). }
  destruct n as [|m].
  { destruct a as [|x [|? ?]]; try done. apply Permutation_singleton_r in P. subst.
    by exists (fun _ => 0). }
  (* the last cell of the target decides the first draw *)
  destruct (last target) as [x|] eqn:Hx.
  2:{ apply last_None in Hx. subst. apply Permutation_nil_l in P. by subst. }
  apply last_Some in Hx as [t' ->].
  assert (Hin : x ∈ a) by (rewrite <- P; apply elem_of_app; right; apply list_elem_of_here).
  apply list_elem_of_lookup_1 in Hin as [j Hj].
  assert (Hjl : j < S (S m)) by (rewrite <- Hl; by eapply lookup_lt_Some).
  pose proof (swap_lookup_l a (S m) j x ltac:(lia) Hj) as Hsw.
  pose proof (swap_length a (S m) j) as Hsl.
  pose proof (swap_Permutation a (S m) j) as Hsp.
  destruct (last (swap a (S m) j)) as [y|] eqn:Hy.
  2:{ apply last_None in Hy. rewrite Hy in Hsl. simpl in Hsl. lia. }
  rewrite last_lookup, Hsl, Hl in Hy. simpl in Hy. rewrite Hsw in Hy. injection Hy as <-.
  destruct (last_Some (swap a (S m) j) x) as [Hex _].
  destruct Hex as [a1 Ha1].
  { rewrite last_lookup, Hsl, Hl. simpl. done. }
  assert (Hl1 : length a1 = S m).
  { apply (f_equal length) in Ha1. rewrite length_app, Hsl, Hl in Ha1. simpl in Ha1. lia. }
  assert (P1 : t' ≡ₚ a1).
  { apply (Permutation_app_inv_r [x]). by rewrite <- Ha1, Hsp. }
  destruct (IH a1 t' Hl1 P1) as [pick' Hp'].
  exists (fun k => if decide (k = S m) then j else pick' k).
  replace (S (S m) - 1) with (S m) by lia. cbn [shuffleLoop].
  rewrite decide_True by done.
  replace (j mod (S m + 1)) with j by (symmetry; apply Nat.mod_small; lia).
  rewrite Ha1, shuffleLoop_app by lia. f_equal.
  rewrite <- Hp'. replace (S m - 1) with m by lia.
  apply shuffleLoop_ext. intros k Hk. by rewrite decide_False by lia.
Qed.

(** X8.  [shuffle] can return every ordering: for each rearrangement of the
    array there are random draws that produce it. *)
Theorem shuffle_reaches_every_order {A} (arr target : list A) :
  target ≡ₚ arr → ∃ pick, shuffle pick arr = target.
Proof. intros P. by apply shuffleLoop_reaches. Qed.

Lemma shuffle_reaches_every_order_witness :
  reverse makeDeck ≡ₚ makeDeck ∧ ∃ pick, shuffle pick makeDeck = reverse makeDeck.
Proof.
  split; [apply reverse_Permutation |].
  apply (shuffle_reaches_every_order makeDeck (reverse makeDeck)).
  apply reverse_Permutation.
Defined.

(** ** Setup *)

Lemma findFirstAttacker_lt (ps : list player) (t : suit) :
  0 < length ps → findFirstAttacker ps t < length ps.
Proof.
  intros Hn. assert (Hb0 : bestSoFar t [] None).
  { intros q c Hq. by apply elem_of_nil in Hq. }
  apply (forEachPlayer_bestSoFar t [] ps None) in Hb0. simpl in Hb0.
  unfold findFirstAttacker.
  destruct (forEachPlayer t 0 ps None) as [[pi c]|]; simpl in Hb0; [| done].
  destruct Hb0 as [(p & Hp & _) _]. by eapply lookup_lt_Some.
Qed.

(** X9.  With at least one player [findFirstAttacker] answers a seat that
    exists, whether or not anybody holds a trump; with no player it answers
    0. *)
Theorem findFirstAttacker_in_range (ps : list player) (t : suit) :
  0 < length ps → findFirstAttacker ps t < length ps ∧ findFirstAttacker [] t = 0.
Proof. intros Hn. split; [by apply findFirstAttacker_lt | done]. Qed.

Lemma findFirstAttacker_in_range_witness :
  0 < length (players deal3)
  ∧ findFirstAttacker (players deal3) Hearts < length (players deal3)
  ∧ findFirstAttacker [] Hearts = 0.
Proof.
  assert (H : 0 < length (players deal3)) by (simpl; lia).
  split; [exact H |]. exact (findFirstAttacker_in_range (players deal3) Hearts H).
Defined.

Lemma seats_alter (f : list card → list card) (i : nat) (ps : list player) :
  seats (alter (withHand f) i ps) = seats ps.
Proof.
  unfold seats. rewrite (list_fmap_alter _ _ id).
  - by apply list_alter_id.
  - by apply Forall_forall.
Qed.

Lemma dealOne_seats (ps ps' : list player) (d d' : list card) (p : nat) :
  dealOne (Some (ps, d)) p = Some (ps', d') →
  seats ps' = seats ps ∧ length d = S (length d') ∧ d' `prefix_of` d.
Proof.
  unfold dealOne. simpl. destruct (pop d) as [[c d'']|] eqn:E; [| done]. simpl.
  intros [= <- <-]. apply pop_Some in E. subst d.
  split; [apply seats_alter |]. rewrite length_app. simpl.
  split; [lia | by apply prefix_app_r].
Qed.

Lemma foldl_dealOne_seats (l : list nat) (ps ps' : list player) (d d' : list card) :
  foldl dealOne (Some (ps, d)) l = Some (ps', d') →
  seats ps' = seats ps ∧ length d = length d' + length l.
Proof.
  revert ps d. induction l as [|p l IH]; intros ps d; cbn [foldl].
  - intros [= <- <-]. simpl. split; [done | lia].
  - destruct (dealOne (Some (ps, d)) p) as [[ps1 d1]|] eqn:E.
    + intros H. destruct (IH _ _ H) as [S1 L1].
      destruct (dealOne_seats _ _ _ _ _ E) as (S2 & L2 & _). simpl.
      split; [congruence | lia].
    + by rewrite foldl_dealOne_None.
Qed.

Lemma foldl_dealRound_seats (n : nat) (l : list nat) (ps ps' : list player) (d d' : list card) :
  foldl (dealRound n) (Some (ps, d)) l = Some (ps', d') →
  seats ps' = seats ps ∧ length d = length d' + length l * n.
Proof.
  revert ps d. induction l as [|i l IH]; intros ps d; cbn [foldl].
  - intros [= <- <-]. simpl. split; [done | lia].
  - destruct (dealRound n (Some (ps, d)) i) as [[ps1 d1]|] eqn:E.
    + intros H. destruct (IH _ _ H) as [S1 L1].
      unfold dealRound in E. destruct (foldl_dealOne_seats _ _ _ _ _ E) as [S2 L2].
      rewrite length_seq in L2. simpl. split; [congruence | lia].
    + by rewrite foldl_dealRound_None.
Qed.

Lemma next_seat_differs (a n : nat) : 2 ≤ n → a < n → (a + 1) mod n ≠ a.
Proof.
  intros Hn Ha. destruct (decide (a + 1 < n)) as [Hlt | Hge].
  - rewrite Nat.mod_small by done. lia.
  - replace (a + 1) with n by lia. rewrite Nat.Div0.mod_same. lia.
Qed.

(** X10.  For 2, 3 or 4 players [newGame] always succeeds and yields: the
    players with ids 0, 1, ... and names "Player 1", "Player 2", ... in
    array order, 8 cards in every hand, 36 - 8n cards in the deck with a
    card of the trump suit at its bottom, an empty table, phase Attack,
    [maxAdds] 0, an attacker that exists and, as defender, the next seat,
    which is another player. *)
Theorem newGame_start (pick : nat → nat) (n : nat) :
  2 ≤ n ≤ 4 →
  ∃ g, newGame pick n = Some g
    ∧ seats (players g) = (fun i => (i, "Player " +:+ pretty (i + 1))) <$> seq 0 n
    ∧ Forall (fun p => length (hand p) = 8) (players g)
    ∧ length (deck g) = 36 - 8 * n
    ∧ (∃ tc, head (deck g) = Some tc ∧ c_suit tc = trump g)
    ∧ table g = [] ∧ phase_ g = PAttack ∧ maxAdds g = 0%Z
    ∧ attacker g < n
    ∧ defender g = (attacker g + 1) mod n
    ∧ defender g < n
    ∧ attacker g ≠ defender g.
Proof.
  intros Hn.
  destruct (newGame_setup pick n) as (ps1 & d1 & tc & d2 & E & _ & L & N & _ & G); [lia |].
  eexists. split; [exact G |]. cbn [players deck table phase_ maxAdds attacker defender trump].
  destruct (newGame_hands pick n _ G) as [_ H8]. cbn [players] in H8.
  assert (Ha : findFirstAttacker ps1 (c_suit tc) < n).
  { rewrite <- L. apply findFirstAttacker_lt. lia. }
  split.
  { unfold dealHands, dealFrom in E. apply foldl_dealRound_seats in E as [-> _].
    unfold seats. by rewrite <- list_fmap_compose. }
  split; [done |]. split; [simpl; lia |]. split; [by exists tc |].
  split; [done |]. split; [done |]. split; [done |]. split; [done |].
  split; [done |]. split; [apply Nat.mod_upper_bound; lia |].
  intros Heq. symmetry in Heq. by apply next_seat_differs in Heq; [| lia |].
Qed.

Lemma newGame_start_witness :
  2 ≤ 2 ≤ 4
  ∧ ∃ g, newGame rigged 2 = Some g
    ∧ seats (players g) = (fun i => (i, "Player " +:+ pretty (i + 1))) <$> seq 0 2
    ∧ Forall (fun p => length (hand p) = 8) (players g)
    ∧ length (deck g) = 36 - 8 * 2
    ∧ (∃ tc, head (deck g) = Some tc ∧ c_suit tc = trump g)
    ∧ table g = [] ∧ phase_ g = PAttack ∧ maxAdds g = 0%Z
    ∧ attacker g < 2
    ∧ defender g = (attacker g + 1) mod 2
    ∧ defender g < 2
    ∧ attacker g ≠ defender g.
Proof. split; [lia |]. apply (newGame_start rigged 2). lia. Defined.

(** X11.  With five players or more the deck runs out during the deal:
    the source pushes [undefined] into hands and then fails reading
    [trumpCard.suit], so no game is set up. *)
Theorem newGame_too_many_players (pick : nat → nat) (n : nat) :
  5 ≤ n → newGame pick n = None.
Proof.
  intros Hn. unfold newGame.
  destruct (dealHands pick n) as [[ps1 d1]|] eqn:E; [| done]. exfalso.
  unfold dealHands, dealFrom in E. apply foldl_dealRound_seats in E as [_ E].
  rewrite (Permutation_length (shuffle_Permutation pick makeDeck)) in E.
  rewrite makeDeck_length, length_seq in E. lia.
Qed.

Lemma newGame_too_many_players_witness : 5 ≤ 5 ∧ newGame keepOrder 5 = None.
Proof. split; [lia |]. apply (newGame_too_many_players keepOrder 5). lia. Defined.

(** ** Refill *)

Lemma drawToFill_all_topped (s : GameState) (i : nat) :
  i < length (players (drawToFill s)) →
  topped (players (drawToFill s), deck (drawToFill s)) i.
Proof.
  rewrite drawToFill_refillSpec. cbn [players deck].
  destruct (refillSpec_refilled (attacker s) (players s) (deck s)) as [(L & _) T].
  intros Hi. rewrite L in Hi. specialize (T i Hi).
  by destruct (refillSpec _ _ _).
Qed.

(** X12.  Refilling twice is refilling once: after [drawToFill] every hand
    has 8 cards or more, or the deck is empty, so a second pass draws
    nothing. *)
Theorem drawToFill_idempotent (s : GameState) :
  drawToFill (drawToFill s) = drawToFill s.
Proof. apply drawToFill_topped. intros i Hi. by apply drawToFill_all_topped. Qed.

Lemma refillOrder_cons (n a : nat) :
  a < n → ∃ rest, refillOrder n a = a :: rest.
Proof.
  intros Ha. unfold refillOrder. destruct n as [|n]; [lia |]. cbn [seq map].
  eexists. f_equal. rewrite Nat.add_0_r. by apply Nat.mod_small.
Qed.

(** X13.  The attacker draws first: when the deck cannot bring the
    attacker's hand beyond 8, the attacker draws the whole deck, top card
    first, and every other hand stays as it was. *)
Theorem drawToFill_attacker_first (s : GameState) (p : player) :
  players s !! attacker s = Some p →
  length (hand p) + length (deck s) ≤ 8 →
  players (drawToFill s)
    = <[attacker s := withHand (fun h => h ++ reverse (deck s)) p]> (players s)
  ∧ deck (drawToFill s) = [].
Proof.
  intros Hp Hle. rewrite drawToFill_refillSpec. cbn [players deck]. unfold refillSpec.
  destruct (refillOrder_cons (length (players s)) (attacker s)) as [rest ->].
  { by eapply lookup_lt_Some. }
  assert (E : refillPlayer (players s, deck s) (attacker s)
              = (<[attacker s := withHand (fun h => h ++ reverse (deck s)) p]> (players s), [])).
  { unfold refillPlayer. cbn [fst snd]. rewrite Hp.
    unfold drawUpTo8. replace ((8 - length (hand p)) `min` length (deck s))
      with (length (deck s)) by lia.
    by rewrite Nat.sub_diag, drop_0, take_0. }
  cbn [foldl]. rewrite E.
  rewrite foldl_refillPlayer_topped; [by split |].
  intros i _ q _. by right.
Qed.

Lemma drawToFill_attacker_first_witness :
  players deal3_attacked !! attacker deal3_attacked
    = Some (Player 2 "Player 3"
              [Card Spades R9; Card Spades R6; Card Hearts RQ; Card Hearts R9;
               Card Hearts R6; Card Diamonds RQ; Card Diamonds R9])
  ∧ 7 + length [Card Clubs RA] ≤ 8
  ∧ players (drawToFill (Game (players deal3_attacked) [Card Clubs RA] Diamonds [] 2 0
                              PCleanup 0))
      !! 2 = Some (Player 2 "Player 3"
              [Card Spades R9; Card Spades R6; Card Hearts RQ; Card Hearts R9;
               Card Hearts R6; Card Diamonds RQ; Card Diamonds R9; Card Clubs RA])
  ∧ deck (drawToFill (Game (players deal3_attacked) [Card Clubs RA] Diamonds [] 2 0
                           PCleanup 0)) = [].
Proof.
  split; [reflexivity |]. split; [simpl; lia |].
  destruct (drawToFill_attacker_first
              (Game (players deal3_attacked) [Card Clubs RA] Diamonds [] 2 0 PCleanup 0)
              (Player 2 "Player 3"
                 [Card Spades R9; Card Spades R6; Card Hearts RQ; Card Hearts R9;
                  Card Hearts R6; Card Diamonds RQ; Card Diamonds R9]))
    as [Hps Hd]; [reflexivity | simpl; lia |].
  split; [by rewrite Hps | exact Hd].
Defined.

(** ** What every accepted action keeps *)

Lemma seats_insert (ps : list player) (i : nat) (p : player) (h : list card) :
  ps !! i = Some p → seats (<[i := withHand (fun _ => h) p]> ps) = seats ps.
Proof.
  intros Hp. unfold seats. rewrite list_fmap_insert. simpl.
  apply list_insert_id. by rewrite list_lookup_fmap, Hp.
Qed.

Lemma refillPlayer_seats (st : list player * list card) (i : nat) :
  seats (refillPlayer st i).1 = seats st.1.
Proof.
  unfold refillPlayer. destruct (st.1 !! i) as [p|] eqn:Hp; [| done].
  destruct (drawUpTo8 _ _). simpl. by apply seats_insert.
Qed.

Lemma foldl_refillPlayer_seats (order : list nat) (st : list player * list card) :
  seats (foldl refillPlayer st order).1 = seats st.1.
Proof.
  revert st. induction order as [|i order IH]; intros st; [done |]. cbn [foldl].
  by rewrite IH, refillPlayer_seats.
Qed.

Lemma round_end_frame (s : GameState) :
  trump (snd (checkForFinish (setPhase PAttack (drawToFill s)))) = trump s
  ∧ seats (players (snd (checkForFinish (setPhase PAttack (drawToFill s)))))
      = seats (players s)
  ∧ deck (snd (checkForFinish (setPhase PAttack (drawToFill s)))) `prefix_of` deck s
  ∧ attacker (snd (checkForFinish (setPhase PAttack (drawToFill s)))) = attacker s
  ∧ defender (snd (checkForFinish (setPhase PAttack (drawToFill s)))) = defender s
  ∧ table (snd (checkForFinish (setPhase PAttack (drawToFill s)))) = table s
  ∧ maxAdds (snd (checkForFinish (setPhase PAttack (drawToFill s)))) = maxAdds s.
Proof.
  destruct (checkForFinish_after (drawToFill s)) as (Hp & Hd & Ht & Ha & Hdf & _).
  rewrite Hp, Hd, Ht, Ha, Hdf.
  destruct (drawToFill_frame s) as (Hps & Hrest & _ & Hpre).
  cbv zeta in Hps, Hrest, Hpre. injection Hrest as Et Etb Eat Edf _ Em.
  split.
  { unfold checkForFinish. by destruct (0 <? _). }
  split.
  { rewrite drawToFill_refillSpec. cbn [players]. apply foldl_refillPlayer_seats. }
  split; [done |]. split; [done |]. split; [done |]. split; [done |].
  unfold checkForFinish. by destruct (0 <? _).
Qed.

Lemma handle_frame (g g' : GameState) (a : action) :
  handle g a = SetGame g' →
  trump g' = trump g
  ∧ seats (players g') = seats (players g)
  ∧ length (players g') = length (players g)
  ∧ deck g' `prefix_of` deck g.
Proof.
  intros H.
  assert (G : trump g' = trump g ∧ seats (players g') = seats (players g)
              ∧ deck g' `prefix_of` deck g).
  { destruct a as [p c | p i c | p c |]; cbn [handle] in H.
    - unfold playAttack in H. destruct (negb _); [done |].
      destruct (players g !! p); [| done]. destruct (findIndex _ _); [| done].
      destruct (_ !! defender g); [| done]. injection H as <-. simpl.
      by rewrite seats_alter.
    - unfold playDefend in H. destruct (negb _); [done |].
      destruct (table g !! i) as [tp|]; [| done].
      destruct (isDefended tp); [done |].
      destruct (players g !! p); [| done]. destruct (findIndex _ _); [| done].
      destruct (negb _); [done |]. cbv zeta in H.
      destruct (forallb isDefended _); injection H as <-.
      + destruct (round_end_frame (Game (alter (withHand (delete n)) p (players g))
            (deck g) (trump g) [] (defender g)
            ((defender g + 1) mod length (alter (withHand (delete n)) p (players g)))
            PCleanup (maxAdds g))) as (-> & -> & Hd & _).
        cbn [players trump deck] in *. by rewrite seats_alter.
      + simpl. by rewrite seats_alter.
    - unfold addAttack in H. destruct (negb _); [done |].
      destruct (players g !! p); [| done]. destruct (findIndex _ _); [| done].
      destruct (negb _); [done |]. destruct (8 <=? _); [done |].
      destruct (_ !! defender g); [| done]. cbv zeta in H.
      destruct (_ <=? _); injection H as <-; simpl; by rewrite seats_alter.
    - unfold defenderTakes in H. destruct (players g !! defender g); [| done].
      cbv zeta in H. injection H as <-.
      destruct (round_end_frame (Game
            (alter (withHand (fun h => h ++ flat_map pairCards (table g))) (defender g)
                   (players g))
            (deck g) (trump g) [] (attacker g)
            ((attacker g + 1) mod length
               (alter (withHand (fun h => h ++ flat_map pairCards (table g))) (defender g)
                      (players g)))
            (phase_ g) (maxAdds g))) as (-> & -> & Hd & _).
      cbn [players trump deck] in *. by rewrite seats_alter. }
  destruct G as (Ht & Hs & Hd). repeat split; try done.
  apply (f_equal length) in Hs. unfold seats in Hs. by rewrite !length_fmap in Hs.
Qed.

Lemma play_frame (l : list action) (g g' : GameState) :
  play g l = Some g' →
  trump g' = trump g
  ∧ seats (players g') = seats (players g)
  ∧ length (players g') = length (players g)
  ∧ deck g' `prefix_of` deck g.
Proof.
  revert g. induction l as [|a l IH]; intros g; simpl.
  - by intros [= <-].
  - destruct (handle g a) as [s | | |] eqn:E; try done. intros H.
    destruct (handle_frame _ _ _ E) as (T1 & S1 & L1 & D1).
    destruct (IH _ H) as (T2 & S2 & L2 & D2).
    repeat split; try congruence. by etrans.
Qed.

(** X14.  No accepted action, and so no run of accepted actions, changes
    the trump suit or the ids, names and number of the players, and none
    puts a card into the deck: the deck after it is the deck before with
    cards taken off its draw end. *)
Theorem handle_keeps (g g' : GameState) (a : action) :
  handle g a = SetGame g' →
  (trump g' = trump g
   ∧ seats (players g') = seats (players g)
   ∧ length (players g') = length (players g)
   ∧ deck g' `prefix_of` deck g)
  ∧ ∀ l g'', play g' l = Some g'' →
      trump g'' = trump g
      ∧ seats (players g'') = seats (players g)
      ∧ length (players g'') = length (players g)
      ∧ deck g'' `prefix_of` deck g.
Proof.
  intros H. split; [by apply (handle_frame g g' a) |].
  intros l g'' Hl. apply (play_frame (a :: l)). simpl. by rewrite H.
Qed.

Lemma handle_keeps_witness :
  handle deal3_attacked Take = SetGame deal3_taken
  ∧ trump deal3_taken = trump deal3_attacked
  ∧ seats (players deal3_taken) = seats (players deal3_attacked)
  ∧ length (players deal3_taken) = length (players deal3_attacked)
  ∧ deck deal3_taken `prefix_of` deck deal3_attacked.
Proof.
  assert (H : handle deal3_attacked Take = SetGame deal3_taken) by by vm_compute.
  split; [exact H |]. exact (proj1 (handle_keeps _ _ _ H)).
Defined.

(** ** When an action is accepted, and what it does *)

Lemma alter_insert {A} (f : A → A) (l : list A) (i : nat) (x : A) :
  l !! i = Some x → alter f i l = <[i := f x]> l.
Proof.
  revert i. induction l as [|y l IH]; intros [|i] H; simplify_eq/=; [done |].
  by rewrite (IH _ H).
Qed.

Lemma findIndex_splice (c : card) (h : list card) (idx : nat) :
  findIndex (sameId c) h = Some idx →
  ∃ l1 l2, h = l1 ++ c :: l2 ∧ (c ∉ l1) ∧ delete idx h = l1 ++ l2.
Proof.
  unfold findIndex. intros H. apply fmap_Some in H as [[i x] [H ->]]. simpl.
  apply list_find_Some in H as (Hl & Hx & Hfirst). apply sameId_true in Hx. subst x.
  exists (take i h), (drop (S i) h). split; [| split].
  - by rewrite take_drop_middle.
  - intros Hin. apply list_elem_of_lookup_1 in Hin as [j Hj].
    pose proof (lookup_lt_Some _ _ _ Hj) as Hlt. rewrite length_take in Hlt.
    rewrite lookup_take_lt in Hj by lia.
    apply (Hfirst j c Hj); [lia |]. by apply sameId_true.
  - apply delete_take_drop.
Qed.

Lemma spend_card (ps : list player) (p idx : nat) (pl : player) (c : card) :
  ps !! p = Some pl → findIndex (sameId c) (hand pl) = Some idx →
  spends ps (alter (withHand (delete idx)) p ps) p c.
Proof.
  intros Hp Hi. destruct (findIndex_splice c (hand pl) idx Hi) as (l1 & l2 & Hh & Hn & Hd).
  exists pl, l1, l2. repeat split; try done.
  rewrite (alter_insert _ _ _ _ Hp). unfold withHand. by rewrite Hd.
Qed.

Lemma findIndex_is_Some (c : card) (h : list card) :
  is_Some (findIndex (sameId c) h) ↔ c ∈ h.
Proof.
  rewrite <- not_eq_None_Some, findIndex_None_sameId.
  destruct (decide (c ∈ h)); naive_solver.
Qed.

Lemma elem_of_ranksOnTable (t : list pair) (r : rank) :
  r ∈ ranksOnTable t ↔ rankOnTable t r.
Proof.
  unfold ranksOnTable, rankOnTable. induction t as [|tp t IH].
  - simpl. split; [by intros H%elem_of_nil |]. by intros (? & H%elem_of_nil & _).
  - cbn [flat_map]. rewrite omap_app, elem_of_app, IH. split.
    + intros [H | (tq & Hq & Hr)].
      * exists tp. split; [apply list_elem_of_here |].
        destruct tp as [a [d|] b]; simpl in *.
        -- apply elem_of_cons in H as [-> | H]; [by left |].
           apply list_elem_of_singleton in H. subst. right. by exists d.
        -- apply list_elem_of_singleton in H. subst. by left.
      * exists tq. split; [by apply list_elem_of_further | done].
    + intros (tq & Hq & Hr). apply elem_of_cons in Hq as [-> | Hq].
      * left. destruct tp as [a [d|] b]; simpl in *.
        -- destruct Hr as [<- | (d' & [= <-] & <-)];
             [apply list_elem_of_here | apply list_elem_of_further, list_elem_of_here].
        -- destruct Hr as [<- | (d' & [=] & _)]. apply list_elem_of_here.
      * right. by exists tq.
Qed.

(** X15.  [playAttack] accepts a card exactly when the player is the
    attacker, holds the card, and the defender's seat exists; the phase
    plays no part.  It then takes the first copy of the card from the
    hand, appends an undefended pair to the table, sets the phase to
    Defend and [maxAdds] to the lesser of the defender's hand and the room
    left under 8 pairs, and leaves deck, trump and roles alone. *)
Theorem playAttack_accepts (g : GameState) (p : nat) (c : card) :
  ((∃ g', playAttack g p c = SetGame g') ↔
     p = attacker g
     ∧ (∃ pl, players g !! p = Some pl ∧ c ∈ hand pl)
     ∧ defender g < length (players g))
  ∧ ∀ g', playAttack g p c = SetGame g' →
      spends (players g) (players g') p c
      ∧ table g' = table g ++ [Pair c None p]
      ∧ phase_ g' = PDefend
      ∧ maxAdds g' = Z.min (Z.of_nat (defenderHandSize g'))
                           (8 - Z.of_nat (length (table g')))
      ∧ deck g' = deck g ∧ trump g' = trump g
      ∧ attacker g' = attacker g ∧ defender g' = defender g.
Proof.
  split.
  - unfold playAttack. split.
    + intros [g' H]. destruct (attacker g =? p) eqn:Ea; [| done]. simpl in H.
      apply Nat.eqb_eq in Ea.
      destruct (players g !! p) as [pl|] eqn:Hp; [| done].
      destruct (findIndex _ _) as [idx|] eqn:Hi; [| done].
      destruct (_ !! defender g) as [dp|] eqn:Hd; [| done].
      split; [done |]. split.
      * exists pl. split; [done |]. apply findIndex_is_Some. by rewrite Hi.
      * apply lookup_lt_Some in Hd. by rewrite length_alter in Hd.
    + intros (-> & (pl & Hp & Hc) & Hd). rewrite Nat.eqb_refl. simpl. rewrite Hp.
      apply findIndex_is_Some in Hc as [idx ->].
      destruct (_ !! defender g) as [dp|] eqn:Hdp; [by eexists |].
      apply lookup_ge_None in Hdp. rewrite length_alter in Hdp. lia.
  - intros g'. unfold playAttack. destruct (negb _); [done |].
    destruct (players g !! p) as [pl|] eqn:Hp; [| done].
    destruct (findIndex _ _) as [idx|] eqn:Hi; [| done].
    destruct (_ !! defender g) as [dp|] eqn:Hd; [| done].
    intros [= <-]. unfold defenderHandSize. simpl. rewrite Hd.
    split; [by eapply spend_card |]. by repeat split.
Qed.

(** X16.  [addAttack] accepts a card exactly when the phase is Defend, the
    seat named exists and holds the card, the rank of the card is on the
    table (as an attack or as a defence), fewer than 8 pairs lie there and
    the defender's seat exists; neither the attacker nor the defender's
    hand size plays a part.  It then takes the card from the hand and
    appends an undefended pair, leaving everything else, [maxAdds]
    included, alone. *)
Theorem addAttack_accepts (g : GameState) (p : nat) (c : card) :
  ((∃ g', addAttack g p c = SetGame g') ↔
     phase_ g = PDefend
     ∧ (∃ pl, players g !! p = Some pl ∧ c ∈ hand pl)
     ∧ rankOnTable (table g) (c_rank c)
     ∧ length (table g) < 8
     ∧ defender g < length (players g))
  ∧ ∀ g', addAttack g p c = SetGame g' →
      spends (players g) (players g') p c
      ∧ table g' = table g ++ [Pair c None p]
      ∧ phase_ g' = PDefend ∧ maxAdds g' = maxAdds g
      ∧ deck g' = deck g ∧ trump g' = trump g
      ∧ attacker g' = attacker g ∧ defender g' = defender g.
Proof.
  split.
  - unfold addAttack. split.
    + intros [g' H]. case_bool_decide as Hph; [| done]. cbn [negb] in H.
      destruct (players g !! p) as [pl|] eqn:Hp; [| done].
      destruct (findIndex _ _) as [idx|] eqn:Hi; [| done].
      case_bool_decide as Hr; [| done]. cbn [negb] in H.
      destruct (8 <=? length (table g)) eqn:H8; [done |].
      destruct (players g !! defender g) as [dp|] eqn:Hd; [| done].
      split; [done |]. split.
      { exists pl. split; [done |]. apply findIndex_is_Some. by rewrite Hi. }
      split; [by apply elem_of_ranksOnTable |].
      split; [by apply Nat.leb_gt in H8 | by eapply lookup_lt_Some].
    + intros (Hph & (pl & Hp & Hc) & Hr & H8 & Hd).
      rewrite bool_decide_true by done. cbn [negb]. rewrite Hp.
      apply findIndex_is_Some in Hc as [idx ->].
      rewrite bool_decide_true by by apply elem_of_ranksOnTable. cbn [negb].
      apply Nat.leb_gt in H8. rewrite H8.
      destruct (lookup_lt_is_Some_2 _ _ Hd) as [dp ->]. cbv zeta.
      destruct (_ + _ <=? _); by eexists.
  - intros g'. unfold addAttack. case_bool_decide as Hph; [| done]. cbn [negb].
    destruct (players g !! p) as [pl|] eqn:Hp; [| done].
    destruct (findIndex _ _) as [idx|] eqn:Hi; [| done].
    destruct (negb _); [done |]. destruct (8 <=? _); [done |].
    destruct (players g !! defender g); [| done]. cbv zeta.
    intros H.
    assert (g' = Game (alter (withHand (delete idx)) p (players g)) (deck g) (trump g)
                      (table g ++ [Pair c None p]) (attacker g) (defender g)
                      (phase_ g) (maxAdds g)) as ->.
    { destruct (_ <=? _); by injection H as <-. }
    simpl. split; [by eapply spend_card |]. by repeat split.
Qed.

Lemma round_end_result (s : GameState) :
  (players (snd (checkForFinish (setPhase PAttack (drawToFill s)))),
   deck (snd (checkForFinish (setPhase PAttack (drawToFill s)))))
    = refillSpec (attacker s) (players s) (deck s)
  ∧ table (snd (checkForFinish (setPhase PAttack (drawToFill s)))) = table s
  ∧ attacker (snd (checkForFinish (setPhase PAttack (drawToFill s)))) = attacker s
  ∧ defender (snd (checkForFinish (setPhase PAttack (drawToFill s)))) = defender s
  ∧ trump (snd (checkForFinish (setPhase PAttack (drawToFill s)))) = trump s
  ∧ maxAdds (snd (checkForFinish (setPhase PAttack (drawToFill s)))) = maxAdds s
  ∧ (phase_ (snd (checkForFinish (setPhase PAttack (drawToFill s)))) = PFinished
     ∨ phase_ (snd (checkForFinish (setPhase PAttack (drawToFill s)))) = PAttack).
Proof.
  destruct (round_end_frame s) as (Ht & _ & _ & Ha & Hd & Htb & Hm).
  destruct (checkForFinish_after (drawToFill s)) as (Hp & Hk & _ & _ & _ & _ & Hor).
  destruct (drawToFill_frame s) as (Hps & _).
  rewrite Hp, Hk. by repeat split.
Qed.

(** X17.  [playDefend] accepts a card exactly when the player is the
    defender, the pair aimed at exists and is undefended, the player holds
    the card and the card beats the attack; the phase plays no part.  A
    held card that does not beat the attack gets the alert and is not
    spent.  An accepted card leaves the hand; if a pair is still
    undefended it is written on its pair and nothing else changes;
    otherwise the table is cleared, the defender becomes the attacker, the
    next seat the defender, and the hands are refilled from the new
    attacker on. *)
Theorem playDefend_accepts (g : GameState) (p i : nat) (c : card) :
  ((∃ g', playDefend g p i c = SetGame g') ↔
     p = defender g
     ∧ (∃ tp, table g !! i = Some tp ∧ defend tp = None
              ∧ canBeat (attack tp) (Some c) (trump g) = true)
     ∧ (∃ pl, players g !! p = Some pl ∧ c ∈ hand pl))
  ∧ (∀ tp pl, p = defender g → table g !! i = Some tp → defend tp = None →
       players g !! p = Some pl → c ∈ hand pl →
       canBeat (attack tp) (Some c) (trump g) = false →
       playDefend g p i c = Alerted "Cannot beat that card")
  ∧ ∀ g', playDefend g p i c = SetGame g' →
      ∃ tp ps1, table g !! i = Some tp
        ∧ spends (players g) ps1 p c
        ∧ trump g' = trump g ∧ maxAdds g' = maxAdds g
        ∧ if resolves g i c
          then table g' = []
               ∧ attacker g' = defender g
               ∧ defender g' = (defender g + 1) mod length (players g)
               ∧ (players g', deck g') = refillSpec (defender g) ps1 (deck g)
               ∧ (phase_ g' = PFinished ∨ phase_ g' = PAttack)
          else players g' = ps1 ∧ deck g' = deck g
               ∧ table g' = <[i := Pair (attack tp) (Some c) (by_ tp)]> (table g)
               ∧ phase_ g' = phase_ g
               ∧ attacker g' = attacker g ∧ defender g' = defender g.
Proof.
  split; [| split].
  - unfold playDefend. split.
    + intros [g' H]. destruct (defender g =? p) eqn:Ed; [| done]. cbn [negb] in H.
      apply Nat.eqb_eq in Ed.
      destruct (table g !! i) as [tp|] eqn:Htp; [| done].
      destruct (isDefended tp) eqn:Hdef; [done |].
      destruct (players g !! p) as [pl|] eqn:Hp; [| done].
      destruct (findIndex _ _) as [idx|] eqn:Hi; [| done].
      destruct (canBeat _ _ _) eqn:Hb; [| done].
      split; [done |]. split.
      * exists tp. split; [done |]. split; [| done].
        unfold isDefended in Hdef. by destruct (defend tp).
      * exists pl. split; [done |]. apply findIndex_is_Some. by rewrite Hi.
    + intros (-> & (tp & Htp & Hdef & Hb) & (pl & Hp & Hc)).
      rewrite Nat.eqb_refl. cbn [negb]. rewrite Htp. unfold isDefended. rewrite Hdef, Hp.
      apply findIndex_is_Some in Hc as [idx ->]. rewrite Hb. cbn [negb]. cbv zeta.
      destruct (forallb _ _); by eexists.
  - intros tp pl -> Htp Hdef Hp Hc Hb. unfold playDefend.
    rewrite Nat.eqb_refl. cbn [negb]. rewrite Htp. unfold isDefended. rewrite Hdef, Hp.
    apply findIndex_is_Some in Hc as [idx ->]. by rewrite Hb.
  - intros g'. unfold playDefend, resolves. destruct (negb _); [done |].
    destruct (table g !! i) as [tp|] eqn:Htp; [| done].
    destruct (isDefended tp) eqn:Hdef; [done |].
    destruct (players g !! p) as [pl|] eqn:Hp; [| done].
    destruct (findIndex _ _) as [idx|] eqn:Hi; [| done].
    destruct (negb _); [done |]. cbv zeta.
    exists tp, (alter (withHand (delete idx)) p (players g)).
    split; [done |]. split; [by eapply spend_card |].
    destruct (forallb isDefended _); injection H as <-.
    + destruct (round_end_result (Game (alter (withHand (delete idx)) p (players g))
          (deck g) (trump g) [] (defender g)
          ((defender g + 1) mod length (alter (withHand (delete idx)) p (players g)))
          PCleanup (maxAdds g))) as (Hps & Htb & Ha & Hd & Ht & Hm & Hor).
      cbn [players deck table attacker defender trump maxAdds] in *.
      repeat split; first [done | rewrite Hd; by rewrite length_alter].
    + simpl. by repeat split.
Qed.

(** X18.  A take is accepted exactly when the defender's seat exists, in
    any phase.  It moves every card on the table, attacks and defences,
    to the end of the defender's hand, clears the table, keeps the
    attacker, names the seat after the attacker defender, and refills from
    the attacker on; the phase becomes Attack or Finished. *)
Theorem defenderTakes_accepts (g : GameState) :
  ((∃ g', defenderTakes g = SetGame g') ↔ defender g < length (players g))
  ∧ ∀ g', defenderTakes g = SetGame g' →
      ∃ dp dp', players g !! defender g = Some dp
        ∧ players g' !! defender g = Some dp'
        ∧ (hand dp ++ tableCards (table g)) `prefix_of` hand dp'
        ∧ (players g', deck g') =
            refillSpec (attacker g)
              (<[defender g := withHand (fun h => h ++ tableCards (table g)) dp]> (players g))
              (deck g)
        ∧ table g' = []
        ∧ attacker g' = attacker g
        ∧ defender g' = (attacker g + 1) mod length (players g)
        ∧ trump g' = trump g ∧ maxAdds g' = maxAdds g
        ∧ (phase_ g' = PFinished ∨ phase_ g' = PAttack).
Proof.
  split.
  - unfold defenderTakes. split.
    + intros [g' H]. destruct (players g !! defender g) eqn:Hd; [| done].
      by eapply lookup_lt_Some.
    + intros Hd. destruct (lookup_lt_is_Some_2 _ _ Hd) as [dp ->]. by eexists.
  - intros g'. unfold defenderTakes.
    destruct (players g !! defender g) as [dp|] eqn:Hdp; [| done]. cbv zeta.
    intros [= <-].
    set (s := Game _ (deck g) (trump g) [] (attacker g) _ (phase_ g) (maxAdds g)).
    destruct (round_end_result s) as (Hps & Htb & Ha & Hd & Ht & Hm & Hor).
    cbn [players deck table attacker defender trump maxAdds s] in Hps, Htb, Ha, Hd, Ht, Hm.
    assert (Hd' : defender (snd (checkForFinish (setPhase PAttack (drawToFill s))))
                  = (attacker g + 1) mod length (players g)).
    { rewrite Hd. by rewrite length_alter. }
    clear Hd. rewrite (alter_insert _ _ _ _ Hdp) in Hps.
    destruct (refillSpec_refilled (attacker g)
                (<[defender g := withHand (fun h => h ++ tableCards (table g)) dp]> (players g))
                (deck g)) as [(_ & _ & _ & Hgrow) _].
    destruct (Hgrow (defender g) (withHand (fun h => h ++ tableCards (table g)) dp))
      as (dp' & Hdp' & _ & _ & Hpre & _).
    { cbn [fst]. apply list_lookup_insert_eq. by eapply lookup_lt_Some. }
    exists dp, dp'. split; [done |]. split.
    { apply (f_equal fst) in Hps. cbn [fst] in Hps. by rewrite Hps. }
    split; [done |]. by repeat split.
Qed.

(** ** What holds throughout a game *)

Lemma newGame_seats (pick : nat → nat) (n : nat) (g : GameState) :
  newGame pick n = Some g →
  seats (players g) = (fun i => (i, "Player " +:+ pretty (i + 1))) <$> seq 0 n.
Proof.
  unfold newGame. destruct (dealHands pick n) as [[ps1 d1]|] eqn:E; [| done]. simpl.
  destruct (pop d1) as [[tc d2]|]; [| done]. intros [= <-]. simpl.
  unfold dealHands, dealFrom in E. apply foldl_dealRound_seats in E as [-> _].
  unfold seats. by rewrite <- list_fmap_compose.
Qed.

Lemma handle_roles (g g' : GameState) (a : action) :
  handle g a = SetGame g' →
  (attacker g' = attacker g ∧ defender g' = defender g)
  ∨ (attacker g' = defender g
     ∧ defender g' = (defender g + 1) mod length (players g))
  ∨ (attacker g' = attacker g
     ∧ defender g' = (attacker g + 1) mod length (players g)).
Proof.
  destruct a as [p c | p i c | p c |]; cbn [handle]; intros H.
  - left. unfold playAttack in H. destruct (negb _); [done |].
    destruct (players g !! p); [| done]. destruct (findIndex _ _); [| done].
    destruct (_ !! defender g); [| done]. by injection H as <-.
  - unfold playDefend in H. destruct (negb _); [done |].
    destruct (table g !! i) as [tp|]; [| done].
    destruct (isDefended tp); [done |].
    destruct (players g !! p); [| done]. destruct (findIndex _ _) as [idx|]; [| done].
    destruct (negb _); [done |]. cbv zeta in H.
    destruct (forallb isDefended _); injection H as <-.
    + right. left.
      destruct (round_end_result (Game (alter (withHand (delete idx)) p (players g))
          (deck g) (trump g) [] (defender g)
          ((defender g + 1) mod length (alter (withHand (delete idx)) p (players g)))
          PCleanup (maxAdds g))) as (_ & _ & Ha & Hd & _).
      cbn [attacker defender] in Ha, Hd. split; [done |]. rewrite Hd. by rewrite length_alter.
    + by left.
  - left. unfold addAttack in H. destruct (negb _); [done |].
    destruct (players g !! p); [| done]. destruct (findIndex _ _); [| done].
    destruct (negb _); [done |]. destruct (8 <=? _); [done |].
    destruct (_ !! defender g); [| done]. cbv zeta in H.
    destruct (_ + _ <=? _); by injection H as <-.
  - right. right. unfold defenderTakes in H. destruct (players g !! defender g); [| done].
    cbv zeta in H. injection H as <-.
    set (s := Game _ (deck g) (trump g) [] (attacker g) _ (phase_ g) (maxAdds g)).
    destruct (round_end_result s) as (_ & _ & Ha & Hd & _).
    cbn [attacker defender s] in Ha, Hd. split; [done |]. rewrite Hd. by rewrite length_alter.
Qed.

Lemma handle_inRoles (g g' : GameState) (a : action) :
  inRoles g → handle g a = SetGame g' → inRoles g'.
Proof.
  intros (Hn & Ha & Hd) H.
  destruct (handle_frame _ _ _ H) as (_ & _ & Hl & _).
  unfold inRoles. rewrite Hl.
  destruct (handle_roles _ _ _ H) as [[-> ->] | [[-> ->] | [-> ->]]].
  - done.
  - split; [done |]. split; [| done]. rewrite Hd. apply Nat.mod_upper_bound. lia.
  - done.
Qed.

Lemma reachable_inRoles (g : GameState) (pile : list card) :
  reachable g pile → inRoles g.
Proof.
  induction 1 as [pick n g Hn Hg | g pile a g' _ IH Ha].
  - destruct (newGame_setup pick n) as (ps1 & d1 & tc & d2 & _ & _ & L & _ & _ & E); [lia |].
    rewrite E in Hg. injection Hg as <-. unfold inRoles. cbn [players attacker defender].
    rewrite L. split; [done |]. split; [| done].
    rewrite <- L. apply findFirstAttacker_lt. lia.
  - by eapply handle_inRoles.
Qed.

Lemma reachable_seats (g : GameState) (pile : list card) :
  reachable g pile →
  seats (players g)
    = (fun i => (i, "Player " +:+ pretty (i + 1))) <$> seq 0 (length (players g)).
Proof.
  induction 1 as [pick n g Hn Hg | g pile a g' _ IH Ha].
  - destruct (newGame_hands pick n g Hg) as [-> _]. by eapply newGame_seats.
  - destruct (handle_frame _ _ _ Ha) as (_ & -> & -> & _). done.
Qed.

(** X19.  In every state of a game there are 2 to 4 players with the ids
    and names of the deal, the attacker is one of them, the defender is
    the next seat round the table, and attacker and defender are two
    different players. *)
Theorem reachable_roles (g : GameState) (pile : list card) :
  reachable g pile →
  2 ≤ length (players g) ≤ 4
  ∧ seats (players g)
      = (fun i => (i, "Player " +:+ pretty (i + 1))) <$> seq 0 (length (players g))
  ∧ attacker g < length (players g)
  ∧ defender g = (attacker g + 1) mod length (players g)
  ∧ defender g < length (players g)
  ∧ attacker g ≠ defender g.
Proof.
  intros H. destruct (reachable_inRoles g pile H) as (Hn & Ha & Hd).
  split; [done |]. split; [by eapply reachable_seats |]. split; [done |].
  split; [done |]. split; [rewrite Hd; apply Nat.mod_upper_bound; lia |].
  rewrite Hd. intros Heq. symmetry in Heq. by apply next_seat_differs in Heq; [| lia |].
Qed.

Lemma reachable_roles_witness :
  reachable deal3_attacked []
  ∧ 2 ≤ length (players deal3_attacked) ≤ 4
  ∧ seats (players deal3_attacked)
      = (fun i => (i, "Player " +:+ pretty (i + 1)))
          <$> seq 0 (length (players deal3_attacked))
  ∧ attacker deal3_attacked < length (players deal3_attacked)
  ∧ defender deal3_attacked
      = (attacker deal3_attacked + 1) mod length (players deal3_attacked)
  ∧ defender deal3_attacked < length (players deal3_attacked)
  ∧ attacker deal3_attacked ≠ defender deal3_attacked.
Proof.
  split; [apply deal3_attacked_reachable |].
  exact (reachable_roles _ _ deal3_attacked_reachable).
Defined.

Lemma reachable_playPile (l : list action) (g g' : GameState) (pile pile' : list card) :
  reachable g pile → playPile g pile l = Some (g', pile') → reachable g' pile'.
Proof.
  revert g pile. induction l as [|a l IH]; intros g pile Hr; simpl.
  - by intros [= <- <-].
  - destruct (handle g a) as [s | | |] eqn:E; try done.
    apply IH. by eapply reach_step.
Qed.

Lemma twoSevensBeaten_reachable :
  reachable twoSevensBeaten
    [Card Diamonds R7; Card Diamonds R8; Card Hearts R7; Card Hearts R8].
Proof.
  apply (reachable_playPile (take 4 riggedMoves) riggedDeal _ []); [| by vm_compute].
  apply (reach_new rigged 4); [lia | by vm_compute].
Qed.

Lemma deal3_taken_reachable : reachable deal3_taken [].
Proof.
  apply (reachable_playPile [Take] deal3_attacked _ []); [| by vm_compute].
  apply deal3_attacked_reachable.
Qed.

Lemma undefended_snoc (t : list pair) (c : card) (p : nat) :
  undefended (t ++ [Pair c None p]) = S (undefended t).
Proof.
  unfold undefended. rewrite List.filter_app, length_app. simpl. lia.
Qed.

Lemma undefended_pos (t : list pair) :
  forallb isDefended t = false → 0 < undefended t.
Proof.
  unfold undefended. induction t as [|tp t IH]; [done |]. simpl.
  destruct (isDefended tp); simpl; [done | lia].
Qed.

Lemma handle_inRound (g g' : GameState) (a : action) :
  inRound g → handle g a = SetGame g' → inRound g'.
Proof.
  intros Hg H.
  destruct (endsRound g a) eqn:E.
  { right. by destruct (ends_round_settled g g' a H E). }
  left. destruct a as [p c | p i c | p c |]; cbn [handle endsRound] in H, E; [| | | done].
  - unfold playAttack in H. destruct (negb _); [done |].
    destruct (players g !! p); [| done]. destruct (findIndex _ _); [| done].
    destruct (_ !! defender g); [| done]. injection H as <-. simpl.
    rewrite undefended_snoc. split; [done | lia].
  - unfold playDefend, resolves in H, E. destruct (negb _); [done |].
    destruct (table g !! i) as [tp|] eqn:Htp; [| done].
    destruct (isDefended tp); [done |].
    destruct (players g !! p); [| done]. destruct (findIndex _ _); [| done].
    destruct (negb _); [done |]. cbv zeta in H. rewrite E in H. injection H as <-.
    cbn [phase_ table]. split; [| by apply undefended_pos].
    destruct Hg as [[Hph _] | (Ht & _)]; [done |]. by rewrite Ht in Htp.
  - unfold addAttack in H. case_bool_decide as Hd; [| done]. cbn [negb] in H.
    destruct (players g !! p); [| done]. destruct (findIndex _ _); [| done].
    destruct (negb _); [done |]. destruct (8 <=? _); [done |].
    destruct (_ !! defender g); [| done]. cbv zeta in H.
    destruct (_ + _ <=? _); injection H as <-; cbn [phase_ table];
      rewrite undefended_snoc; (split; [done | lia]).
Qed.

Lemma reachable_inRound (g : GameState) (pile : list card) :
  reachable g pile → inRound g.
Proof.
  induction 1 as [pick n g Hn Hg | g pile a g' Hr IH Ha].
  - destruct (reachable_wellPhased g [] (reach_new pick n g Hn Hg)) as [_ [Hph | Hs]];
      [| by right].
    destruct (newGame_setup pick n) as (? & ? & ? & ? & _ & _ & _ & _ & _ & E); [lia |].
    rewrite E in Hg. injection Hg as <-. done.
  - by eapply handle_inRound.
Qed.

(** X20.  Throughout a game the phase tells the state of the table: the
    phase is Defend exactly when the table is not empty, and then at least
    one pair is still undefended; the phase is never Cleanup; and in phase
    Attack or Finished every hand has 8 cards or more or the deck is
    empty. *)
Theorem reachable_phase_table (g : GameState) (pile : list card) :
  reachable g pile →
  phase_ g ≠ PCleanup
  ∧ (phase_ g = PDefend ↔ table g ≠ [])
  ∧ (phase_ g = PDefend → 0 < undefended (table g))
  ∧ (phase_ g ≠ PDefend →
       deck g = [] ∨ Forall (fun p => 8 ≤ length (hand p)) (players g)).
Proof.
  intros H. destruct (reachable_inRound g pile H) as [[Hph Hu] | Hs].
  - rewrite Hph. split; [done |]. split; [| split; [done | done]].
    split; [| done]. intros _ Ht. rewrite Ht in Hu. unfold undefended in Hu. simpl in Hu. lia.
  - destruct Hs as (Ht & _ & Htop & _ & Hor). rewrite Ht.
    split; [by destruct Hor as [-> | ->] |].
    split; [split; [by destruct Hor as [-> | ->] | done] |].
    split; [by destruct Hor as [-> | ->] |].
    intros _. destruct (deck g) as [|c d] eqn:Ed; [by left |]. right.
    apply Forall_forall. intros p Hp. apply list_elem_of_lookup_1 in Hp as [i Hi].
    destruct (Htop i (lookup_lt_Some _ _ _ Hi) p Hi) as [? | ?]; done.
Qed.

Lemma reachable_phase_table_witness :
  reachable deal3_taken []
  ∧ phase_ deal3_taken ≠ PCleanup
  ∧ (phase_ deal3_taken = PDefend ↔ table deal3_taken ≠ [])
  ∧ (phase_ deal3_taken = PDefend → 0 < undefended (table deal3_taken))
  ∧ (phase_ deal3_taken ≠ PDefend →
       deck deal3_taken = []
       ∨ Forall (fun p => 8 ≤ length (hand p)) (players deal3_taken)).
Proof.
  split; [apply deal3_taken_reachable |].
  exact (reachable_phase_table _ _ deal3_taken_reachable).
Defined.

(** X21.  In a game the only way to make a handler fail with a
    [TypeError] is an add-attack, in the Defend phase, for a seat that does
    not exist; attacks, defences and takes never fail, whatever their
    arguments. *)
Theorem reachable_throws (g : GameState) (pile : list card) (a : action) :
  reachable g pile →
  (handle g a = Thrown ↔
     ∃ p c, a = AddAttack p c ∧ phase_ g = PDefend ∧ length (players g) ≤ p).
Proof.
  intros Hr. destruct (reachable_inRoles g pile Hr) as (Hn & Ha & Hd).
  assert (Hdl : defender g < length (players g)).
  { rewrite Hd. apply Nat.mod_upper_bound. lia. }
  destruct a as [p c | p i c | p c |]; cbn [handle].
  - split; [| by intros (? & ? & [=] & _)]. unfold playAttack.
    destruct (attacker g =? p) eqn:E; [| done]. apply Nat.eqb_eq in E. subst p. cbn [negb].
    destruct (lookup_lt_is_Some_2 _ _ Ha) as [pl ->].
    destruct (findIndex _ _) as [idx|]; [| done]. cbv zeta.
    destruct (_ !! defender g) eqn:El; [done |].
    apply lookup_ge_None in El. rewrite length_alter in El. lia.
  - split; [| by intros (? & ? & [=] & _)]. unfold playDefend.
    destruct (defender g =? p) eqn:E; [| done]. apply Nat.eqb_eq in E. subst p. cbn [negb].
    destruct (table g !! i) as [tp|]; [| done]. destruct (isDefended tp); [done |].
    destruct (lookup_lt_is_Some_2 _ _ Hdl) as [pl ->].
    destruct (findIndex _ _) as [idx|]; [| done]. destruct (negb _); [done |]. cbv zeta.
    by destruct (forallb _ _).
  - unfold addAttack. case_bool_decide as Hph; cbn [negb].
    2:{ split; [done |]. by intros (? & ? & _ & ? & _). }
    destruct (players g !! p) as [pl|] eqn:Hp.
    + split.
      * destruct (findIndex _ _) as [idx|]; [| done]. destruct (negb _); [done |].
        destruct (8 <=? _); [done |].
        destruct (lookup_lt_is_Some_2 _ _ Hdl) as [dp ->]. cbv zeta.
        by destruct (_ + _ <=? _).
      * intros (p' & c' & [= <- <-] & _ & Hge). apply lookup_lt_Some in Hp. lia.
    + split; [| done]. intros _. exists p, c. split; [done |]. split; [done |].
      by apply lookup_ge_None.
  - split; [| by intros (? & ? & [=] & _)]. unfold defenderTakes.
    by destruct (lookup_lt_is_Some_2 _ _ Hdl) as [dp ->].
Qed.

Lemma reachable_throws_witness :
  reachable deal3_attacked []
  ∧ (handle deal3_attacked (AddAttack 7 (Card Hearts RQ)) = Thrown ↔
       ∃ p c, AddAttack 7 (Card Hearts RQ) = AddAttack p c
              ∧ phase_ deal3_attacked = PDefend
              ∧ length (players deal3_attacked) ≤ p).
Proof.
  split; [apply deal3_attacked_reachable |].
  exact (reachable_throws _ _ (AddAttack 7 (Card Hearts RQ)) deal3_attacked_reachable).
Defined.

Lemma reachable_cards (g : GameState) (pile : list card) :
  reachable g pile → cardsInPlay g ++ pile ≡ₚ makeDeck.
Proof.
  induction 1 as [pick n g Hn Hg | g pile a g' _ IH Ha].
  - rewrite app_nil_r. apply (newGame_cards pick n); [lia | done].
  - by rewrite (comm (++) pile), app_assoc, (handle_cards _ _ _ Ha).
Qed.

(** X22.  A discarded card is out of the game for good: in every state of
    a game no card of the discard pile is in the deck, in a hand or on the
    table, no card lies twice in the pile, and the cards in play and the
    pile count 36 together. *)
Theorem discards_stay_out (g : GameState) (pile : list card) :
  reachable g pile →
  NoDup pile
  ∧ (∀ c, c ∈ pile → c ∉ cardsInPlay g)
  ∧ NoDup (cardsInPlay g)
  ∧ length (cardsInPlay g) + length pile = 36.
Proof.
  intros H. pose proof (reachable_cards g pile H) as P.
  pose proof makeDeck_NoDup as Hnd. rewrite <- P in Hnd.
  apply NoDup_app in Hnd as (Hc & Hdis & Hp).
  split; [done |]. split; [intros c Hc' Hin; by apply (Hdis c) |]. split; [done |].
  rewrite <- length_app, P. reflexivity.
Qed.

Lemma discards_stay_out_witness :
  reachable twoSevensBeaten
    [Card Diamonds R7; Card Diamonds R8; Card Hearts R7; Card Hearts R8]
  ∧ NoDup [Card Diamonds R7; Card Diamonds R8; Card Hearts R7; Card Hearts R8]
  ∧ (∀ c, c ∈ [Card Diamonds R7; Card Diamonds R8; Card Hearts R7; Card Hearts R8] →
          c ∉ cardsInPlay twoSevensBeaten)
  ∧ NoDup (cardsInPlay twoSevensBeaten)
  ∧ length (cardsInPlay twoSevensBeaten)
    + length [Card Diamonds R7; Card Diamonds R8; Card Hearts R7; Card Hearts R8] = 36.
Proof.
  split; [apply twoSevensBeaten_reachable |].
  exact (discards_stay_out _ _ twoSevensBeaten_reachable).
Defined.

(** X23.  Outside the Defend phase a take changes nothing in a game: the
    table is empty, the defender already sits after the attacker and the
    hands were already refilled, so the state that [defenderTakes] sets is
    the state it found, in phase Attack as in phase Finished. *)
Theorem take_between_rounds (g : GameState) (pile : list card) :
  reachable g pile → phase_ g ≠ PDefend →
  defenderTakes g = SetGame g ∧ nextGame g (handle g Take) = g.
Proof.
  intros Hr Hph. pose proof (take_outside_defend_same_state g pile Hr Hph) as H.
  split; [done |]. simpl. by rewrite H.
Qed.

Lemma take_between_rounds_witness :
  reachable deal3_taken [] ∧ phase_ deal3_taken ≠ PDefend
  ∧ defenderTakes deal3_taken = SetGame deal3_taken
  ∧ nextGame deal3_taken (handle deal3_taken Take) = deal3_taken.
Proof.
  assert (H : phase_ deal3_taken ≠ PDefend) by done.
  split; [apply deal3_taken_reachable |]. split; [exact H |].
  exact (take_between_rounds _ _ deal3_taken_reachable H).
Defined.

(** ** The buttons *)

Lemma findIndex_first {A} (f : A → bool) (l : list A) (i : nat) :
  findIndex f l = Some i →
  ∃ x, l !! i = Some x ∧ f x = true ∧ ∀ j y, j < i → l !! j = Some y → f y = false.
Proof.
  unfold findIndex. intros H. apply fmap_Some in H as [[k x] [H ->]]. simpl.
  apply list_find_Some in H as (Hl & Hx & Hfirst). exists x. split; [done |]. split; [done |].
  intros j y Hj Hy. apply not_true_iff_false. by apply (Hfirst j y).
Qed.

Lemma findIndex_at {A} (f : A → bool) (l : list A) (i : nat) (x : A) :
  l !! i = Some x → f x = true →
  (∀ j y, j < i → l !! j = Some y → f y = false) →
  findIndex f l = Some i.
Proof.
  intros Hx Hf Hfirst. unfold findIndex.
  assert (H : list_find (fun x => f x = true) l = Some (i, x)).
  { apply list_find_Some. split; [done |]. split; [done |].
    intros j y Hy Hj. rewrite (Hfirst j y Hj Hy). done. }
  by rewrite H.
Qed.

Lemma handleClick_SetGame (g g' : GameState) (me : nat) (c : card) :
  handleClick g me c = SetGame g' →
  (phase_ g = PAttack ∧ me = attacker g ∧ playAttack g me c = SetGame g')
  ∨ (phase_ g = PDefend ∧ me = defender g
     ∧ ∃ i tp, table g !! i = Some tp ∧ defend tp = None
         ∧ (∀ j tq, j < i → table g !! j = Some tq → defend tq ≠ None)
         ∧ playDefend g me i c = SetGame g')
  ∨ (phase_ g = PDefend ∧ me = attacker g ∧ me ≠ defender g
     ∧ addAttack g me c = SetGame g').
Proof.
  unfold handleClick. cbv zeta.
  destruct (bool_decide (phase_ g = PAttack) && (attacker g =? me)) eqn:E1.
  { apply andb_true_iff in E1 as [Hph Ha%Nat.eqb_eq]. apply bool_decide_eq_true in Hph.
    intros H. left. by subst. }
  destruct (bool_decide (phase_ g = PDefend) && (defender g =? me)) eqn:E2.
  { apply andb_true_iff in E2 as [Hph Hd%Nat.eqb_eq]. apply bool_decide_eq_true in Hph.
    destruct (findIndex _ _) as [i|] eqn:Hi; [| done]. intros H. right. left.
    apply findIndex_first in Hi as (tp & Htp & Hu & Hfirst).
    split; [done |]. split; [done |]. exists i, tp. split; [done |].
    unfold isDefended in Hu. split; [by destruct (defend tp) |]. split; [| done].
    intros j tq Hj Htq. specialize (Hfirst j tq Hj Htq). unfold isDefended in Hfirst.
    by destruct (defend tq). }
  destruct (bool_decide (phase_ g = PDefend) && (attacker g =? me)) eqn:E3; [| done].
  apply andb_true_iff in E3 as [Hph Ha%Nat.eqb_eq]. apply bool_decide_eq_true in Hph.
  intros H. right. right. split; [done |]. split; [done |]. split; [| done].
  intros Hd. rewrite bool_decide_true in E2 by done. cbn [andb] in E2.
  apply Nat.eqb_neq in E2. done.
Qed.

(** X24.  What a click on a card does.  In phase Attack a card of the
    attacker is led: the click is [playAttack] on that seat and card.  In
    phase Defend a card of the defender is tried on the first undefended
    pair of the table: the click is [playDefend] at that index, or the
    alert "No attack to defend" when every pair is beaten.  In phase
    Defend a card of the attacker (when not also the defender) is added to
    the attack: the click is [addAttack].  Hence a click that sets a new
    state did one of these three things; cards of other players, and all
    cards in the phases Finished and Cleanup, do nothing. *)
Theorem click_rules (g : GameState) (me : nat) (c : card) :
  (phase_ g = PAttack → me = attacker g → handleClick g me c = playAttack g me c)
  ∧ (phase_ g = PDefend → me = defender g →
     ∀ i tp, table g !! i = Some tp → defend tp = None →
       (∀ j tq, j < i → table g !! j = Some tq → defend tq ≠ None) →
       handleClick g me c = playDefend g me i c)
  ∧ (phase_ g = PDefend → me = attacker g → me ≠ defender g →
       handleClick g me c = addAttack g me c)
  ∧ (∀ g', handleClick g me c = SetGame g' →
     (phase_ g = PAttack ∧ me = attacker g ∧ playAttack g me c = SetGame g')
     ∨ (phase_ g = PDefend ∧ me = defender g
        ∧ ∃ i tp, table g !! i = Some tp ∧ defend tp = None
            ∧ (∀ j tq, j < i → table g !! j = Some tq → defend tq ≠ None)
            ∧ playDefend g me i c = SetGame g')
     ∨ (phase_ g = PDefend ∧ me = attacker g ∧ me ≠ defender g
        ∧ addAttack g me c = SetGame g'))
  ∧ (me ≠ attacker g → me ≠ defender g → handleClick g me c = Ignored)
  ∧ (phase_ g = PFinished ∨ phase_ g = PCleanup → handleClick g me c = Ignored)
  ∧ (phase_ g = PAttack → me ≠ attacker g → handleClick g me c = Ignored)
  ∧ (phase_ g = PDefend → me = defender g →
       Forall (fun t => defend t ≠ None) (table g) →
       handleClick g me c = Alerted "No attack to defend").
Proof.
  split; [| split; [| split; [| split; [intros g'; apply handleClick_SetGame |]]]];
    unfold handleClick; cbv zeta.
  - intros Hph ->. by rewrite Hph, bool_decide_true, Nat.eqb_refl by done.
  - intros Hph -> i tp Htp Hu Hfirst. rewrite Hph. rewrite bool_decide_false by done.
    cbn [andb]. rewrite bool_decide_true by done. rewrite Nat.eqb_refl. cbn [andb].
    rewrite (findIndex_at _ _ i tp Htp); [done | by unfold isDefended; rewrite Hu |].
    intros j tq Hj Htq. specialize (Hfirst j tq Hj Htq). unfold isDefended.
    by destruct (defend tq).
  - intros Hph -> Hd. rewrite Hph. rewrite bool_decide_false by done. cbn [andb].
    rewrite bool_decide_true by done. apply not_eq_sym, Nat.eqb_neq in Hd. rewrite Hd.
    by rewrite Nat.eqb_refl.
  - split; [| split; [| split]].
    + intros Ha Hd. apply not_eq_sym, Nat.eqb_neq in Ha, Hd. rewrite Ha, Hd.
      by rewrite !andb_false_r.
    + intros [Hph | Hph]; rewrite Hph; by rewrite !bool_decide_false by done.
    + intros Hph Ha. rewrite Hph. apply not_eq_sym, Nat.eqb_neq in Ha. rewrite Ha.
      rewrite andb_false_r. by rewrite bool_decide_false by done.
    + intros Hph -> Hall. rewrite Hph. rewrite bool_decide_false by done. cbn [andb].
      rewrite bool_decide_true by done. rewrite Nat.eqb_refl. cbn [andb].
      destruct (findIndex _ _) as [i|] eqn:Hi; [| done].
      apply findIndex_first in Hi as (tp & Htp & Hu & _).
      rewrite Forall_forall in Hall. apply list_elem_of_lookup_2 in Htp.
      specialize (Hall tp Htp). unfold isDefended in Hu. by destruct (defend tp).
Qed.

Lemma handle_table (g g' : GameState) (a : action) :
  handle g a = SetGame g' →
  match a with
  | Attack p c => table g' = table g ++ [Pair c None p] ∧ attacker g' = attacker g
  | AddAttack p c =>
      table g' = table g ++ [Pair c None p] ∧ attacker g' = attacker g
      ∧ length (table g) < 8
  | Defend p i c =>
      table g' = []
      ∨ ∃ tp, table g !! i = Some tp ∧ attacker g' = attacker g
              ∧ table g' = <[i := Pair (attack tp) (Some c) (by_ tp)]> (table g)
  | Take => table g' = []
  end.
Proof.
  destruct a as [p c | p i c | p c |]; cbn [handle]; intros H.
  - unfold playAttack in H. destruct (negb _); [done |].
    destruct (players g !! p); [| done]. destruct (findIndex _ _); [| done].
    destruct (_ !! defender g); [| done]. by injection H as <-.
  - destruct (resolves g i c) eqn:E.
    + left. by destruct (ends_round_settled g g' (Defend p i c) H E) as [(-> & _) _].
    + right. unfold playDefend, resolves in H, E. destruct (negb _); [done |].
      destruct (table g !! i) as [tp|]; [| done].
      destruct (isDefended tp); [done |].
      destruct (players g !! p); [| done]. destruct (findIndex _ _); [| done].
      destruct (negb _); [done |]. cbv zeta in H. rewrite E in H. injection H as <-.
      by exists tp.
  - unfold addAttack in H. destruct (negb _); [done |].
    destruct (players g !! p); [| done]. destruct (findIndex _ _); [| done].
    destruct (negb _); [done |]. destruct (8 <=? length (table g)) eqn:H8; [done |].
    apply Nat.leb_gt in H8.
    destruct (_ !! defender g); [| done]. cbv zeta in H.
    destruct (_ + _ <=? _); by injection H as <-.
  - by destruct (ends_round_settled g g' Take H eq_refl) as [(-> & _) _].
Qed.

Lemma press_handle (g g' : GameState) (k : click) :
  press g k = SetGame g' →
  ∃ a, handle g a = SetGame g'
       ∧ match a with
         | Attack p _ => phase_ g = PAttack ∧ p = attacker g
         | AddAttack p _ => p = attacker g
         | _ => True
         end.
Proof.
  destruct k as [me c |]; cbn [press]; intros H.
  - apply handleClick_SetGame in H
      as [(Hph & -> & H) | [(_ & -> & i & _ & _ & _ & _ & H) | (_ & -> & _ & H)]].
    + by exists (Attack (attacker g) c).
    + by exists (Defend (defender g) i c).
    + by exists (AddAttack (attacker g) c).
  - by exists Take.
Qed.

Lemma played_reachable (g : GameState) :
  played g → (∃ pile, reachable g pile) ∧ tableInOrder g.
Proof.
  induction 1 as [pick n g Hn Hg | g k g' _ [[pile Hr] [Hlen Hby]] _ Hp].
  - split; [exists []; by eapply reach_new |].
    destruct (newGame_setup pick n) as (? & ? & ? & ? & _ & _ & _ & _ & _ & E); [lia |].
    rewrite E in Hg. injection Hg as <-. split; simpl; [lia | done].
  - apply press_handle in Hp as (a & Ha & Hrole).
    split; [exists (pile ++ discarded g a); by eapply reach_step |].
    pose proof (handle_table g g' a Ha) as Ht. unfold tableInOrder.
    destruct a as [p c | p i c | p c |].
    + destruct Ht as [-> ->]. destruct Hrole as [Hph ->].
      destruct (reachable_inRound g pile Hr) as [[Hd _] | (Hempty & _)]; [congruence |].
      rewrite Hempty. simpl. split; [lia |]. by repeat constructor.
    + destruct Ht as [-> | (tp & Htp & -> & ->)]; [split; simpl; [lia | done] |].
      rewrite length_insert. split; [done |].
      apply Forall_insert; [done |]. simpl.
      rewrite Forall_forall in Hby. apply Hby. by eapply list_elem_of_lookup_2.
    + destruct Ht as (-> & -> & H8). subst p. rewrite length_app. simpl. split; [lia |].
      apply Forall_app. split; [done |]. by repeat constructor.
    + rewrite Ht. split; simpl; [lia | done].
Qed.

(** X25.  A game played on the buttons keeps the table in order: it never
    holds more than 8 pairs and every pair on it was led by the current
    attacker.  Every state of such a game is a state the handlers reach. *)
Theorem played_table (g : GameState) :
  played g →
  length (table g) ≤ 8
  ∧ Forall (fun t => by_ t = attacker g) (table g)
  ∧ ∃ pile, reachable g pile.
Proof.
  intros H. destruct (played_reachable g H) as [Hr [Hl Hb]]. done.
Qed.

Lemma played_pressAll (ks : list click) (g g' : GameState) :
  played g → pressAll g ks = Some g' → played g'.
Proof.
  revert g. induction ks as [|k ks IH]; intros g Hg; simpl.
  - by intros [= <-].
  - destruct (offeredb g k) eqn:Ho; [| done].
    destruct (press g k) as [s | | |] eqn:E; try done.
    apply IH. eapply played_press; [done | | done].
    destruct k as [me c |]; simpl in Ho |- *.
    + destruct (players g !! me) as [pl|]; [| done].
      exists pl. split; [done |]. by apply bool_decide_eq_true in Ho.
    + by apply Nat.ltb_lt.
Qed.

Lemma quickGameOver_played : played quickGameOver.
Proof.
  apply (played_pressAll quickClicks riggedDeal); [| by vm_compute].
  apply (played_new rigged 4); [lia | by vm_compute].
Qed.

Lemma played_table_witness :
  played quickGameOver
  ∧ length (table quickGameOver) ≤ 8
  ∧ Forall (fun t => by_ t = attacker quickGameOver) (table quickGameOver)
  ∧ ∃ pile, reachable quickGameOver pile.
Proof.
  split; [apply quickGameOver_played |]. exact (played_table _ quickGameOver_played).
Defined.

(** X26.  On the buttons Finished is final: once a game has reached phase
    Finished, which it does only with an empty deck and a player without
    cards, no button changes the state any more: cards do nothing and
    Take sets the state it found. *)
Theorem played_finished_final (g : GameState) (k : click) :
  played g → phase_ g = PFinished →
  nextGame g (press g k) = g ∧ someoneOut g.
Proof.
  intros Hp Hph. destruct (played_reachable g Hp) as [[pile Hr] _].
  split.
  - destruct k as [me c |]; cbn [press].
    + unfold handleClick. cbv zeta. rewrite Hph.
      by rewrite !bool_decide_false by done.
    + rewrite (take_outside_defend_same_state g pile Hr); [done |]. by rewrite Hph.
  - destruct (reachable_inRound g pile Hr) as [[Hd _] | (_ & _ & _ & Hf & _)]; [congruence |].
    by apply Hf.
Qed.

Lemma played_finished_final_witness :
  played quickGameOver ∧ phase_ quickGameOver = PFinished
  ∧ nextGame quickGameOver (press quickGameOver TakeClick) = quickGameOver
  ∧ someoneOut quickGameOver.
Proof.
  assert (H : phase_ quickGameOver = PFinished) by done.
  split; [apply quickGameOver_played |]. split; [exact H |].
  exact (played_finished_final _ TakeClick quickGameOver_played H).
Defined.

(** ** The phase and the seat, as the buttons check them

    [playAttack], [playDefend] and [addAttack] are closures of the
    component; their only callers are the three branches of [handleClick],
    and [defenderTakes] is called by the Take button only.  What a player
    can attempt is a click, and the phase and the seat are tested there.
    The states are those of a game ([played]): a state pasted in through
    [importState] is whatever the JSON says and is not considered. *)

Lemma addAttack_SetGame (g g' : GameState) (p : nat) (c : card) :
  addAttack g p c = SetGame g' →
  rankOnTable (table g) (c_rank c) ∧ length (table g) < 8
  ∧ table g' = table g ++ [Pair c None p].
Proof.
  unfold addAttack. intros H. destruct (negb _); [done |].
  destruct (players g !! p); [| done]. destruct (findIndex _ _); [| done].
  case_bool_decide as Hr; [| done]. cbn [negb] in H.
  destruct (8 <=? length (table g)) eqn:H8; [done |]. apply Nat.leb_gt in H8.
  destruct (_ !! defender g); [| done]. cbv zeta in H.
  split; [by apply elem_of_ranksOnTable |]. split; [done |].
  destruct (_ + _ <=? _); by injection H as <-.
Qed.

Lemma playDefend_table (g g' : GameState) (p i : nat) (c : card) :
  playDefend g p i c = SetGame g' →
  table g' = []
  ∨ (attack <$> table g' = attack <$> table g ∧ by_ <$> table g' = by_ <$> table g).
Proof.
  intros H. destruct (handle_table g g' (Defend p i c) H) as [-> | (tp & Htp & _ & ->)];
    [by left | right].
  rewrite !list_fmap_insert. cbn [attack by_].
  split; apply list_insert_id; by rewrite list_lookup_fmap, Htp.
Qed.






(** C7.  In phase Defend only the attacker adds to the attack.  A click
    that lengthens the table comes from the seat of the attacker and is
    [addAttack] on that seat.  A card of a player who is neither attacker
    nor defender is ignored and the state stays as it is; a card of the
    defender is a defence: it clears the table or beats a pair, and leaves
    the attacking cards and their leaders as they were. *)
Theorem add_attack_only_by_attacker (g : GameState) (p : nat) (c : card) :
  phase_ g = PDefend →
  (∀ g', press g (CardClick p c) = SetGame g' →
     length (table g) < length (table g') →
     p = attacker g ∧ addAttack g p c = SetGame g'
     ∧ table g' = table g ++ [Pair c None (attacker g)])
  ∧ (p ≠ attacker g → p ≠ defender g →
     press g (CardClick p c) = Ignored ∧ nextGame g (press g (CardClick p c)) = g)
  ∧ (p ≠ attacker g →
     ∀ g', press g (CardClick p c) = SetGame g' →
       p = defender g
       ∧ (∃ i, playDefend g p i c = SetGame g')
       ∧ (table g' = []
          ∨ (attack <$> table g' = attack <$> table g
             ∧ by_ <$> table g' = by_ <$> table g))).
Proof.
  intros Hph. split; [| split].
  - intros g' H Hlen. cbn [press] in H.
    apply handleClick_SetGame in H
      as [(? & _) | [(_ & -> & i & _ & _ & _ & _ & H) | (_ & -> & _ & H)]]; [congruence | |].
    + destruct (playDefend_table g g' (defender g) i c H) as [E | [E _]].
      * rewrite E in Hlen. simpl in Hlen. lia.
      * apply (f_equal length) in E. rewrite !length_fmap in E. lia.
    + split; [done |]. split; [done |].
      by destruct (addAttack_SetGame g g' (attacker g) c H) as (_ & _ & ?).
  - intros Ha Hd. assert (E : press g (CardClick p c) = Ignored); [| by rewrite E].
    cbn [press]. unfold handleClick. cbv zeta.
    apply not_eq_sym, Nat.eqb_neq in Ha, Hd. rewrite Ha, Hd. by rewrite !andb_false_r.
  - intros Ha g' H. cbn [press] in H.
    apply handleClick_SetGame in H
      as [(? & _) | [(_ & -> & i & _ & _ & _ & _ & H) | (_ & ? & _)]]; [congruence | | done].
    split; [done |]. split; [by exists i |].
    by apply (playDefend_table g g' (defender g) i c).
Qed.

(** With player 4 (index 3) attacking player 1 (index 0), the button of
    the seven of diamonds in the hand of player 2 (index 1) does nothing. *)
Lemma add_attack_only_by_attacker_witness :
  phase_ deal4_attacked = PDefend
  ∧ attacker deal4_attacked = 3 ∧ defender deal4_attacked = 0
  ∧ offered deal4_attacked (CardClick 1 (Card Diamonds R7))
  ∧ press deal4_attacked (CardClick 1 (Card Diamonds R7)) = Ignored
  ∧ nextGame deal4_attacked (press deal4_attacked (CardClick 1 (Card Diamonds R7)))
    = deal4_attacked.
Proof.
  assert (H : phase_ deal4_attacked = PDefend) by done.
  split; [exact H |]. split; [done |]. split; [done |]. split.
  { eexists. split; [by vm_compute |]. apply (bool_decide_unpack _). by vm_compute. }
  destruct (add_attack_only_by_attacker deal4_attacked 1 (Card Diamonds R7) H)
    as (_ & H2 & _).
  apply H2; simpl; lia.
Defined.

(** ** How many cards a refill draws *)

Lemma sum_list_with_same {A} (f g : A → nat) (l : list A) :
  Forall (fun x => f x = g x) l → sum_list_with f l = sum_list_with g l.
Proof. induction 1 as [|x l Hx _ IH]; simpl; [done |]. by rewrite Hx, IH. Qed.

Lemma sum_missing_seq (ps : list player) :
  sum_list_with (missing ps) (seq 0 (length ps)) = need ps.
Proof.
  unfold need. induction ps as [|p ps IH]; [done |].
  change (seq 0 (length (p :: ps))) with (0 :: seq 1 (length ps)).
  rewrite <- fmap_S_seq. cbn [sum_list_with]. rewrite <- IH.
  unfold missing at 1. simpl. f_equal.
  generalize (seq 0 (length ps)). intros l. induction l as [|j l IHl]; [done |].
  cbn [fmap list_fmap sum_list_with]. by rewrite IHl.
Qed.

Lemma refillPlayer_count (st : list player * list card) (i : nat) :
  length (refillPlayer st i).2 = length st.2 - (missing st.1 i `min` length st.2)
  ∧ missing (refillPlayer st i).1 i = missing st.1 i - (missing st.1 i `min` length st.2)
  ∧ ∀ j, j ≠ i → missing (refillPlayer st i).1 j = missing st.1 j.
Proof.
  unfold refillPlayer, missing. destruct (st.1 !! i) as [p|] eqn:Hp.
  - unfold drawUpTo8. cbn [fst snd]. split; [| split].
    + rewrite length_take. lia.
    + rewrite list_lookup_insert_eq by by eapply lookup_lt_Some. simpl.
      rewrite length_app, length_reverse, length_drop. lia.
    + intros j Hj. by rewrite list_lookup_insert_ne.
  - rewrite Hp. split; [simpl; lia |]. by split.
Qed.

Lemma foldl_refillPlayer_other (order : list nat) (st : list player * list card) (i : nat) :
  i ∉ order → missing (foldl refillPlayer st order).1 i = missing st.1 i.
Proof.
  revert st. induction order as [|j order IH]; intros st Hi; [done |]. cbn [foldl].
  apply not_elem_of_cons in Hi as [Hne Hi]. rewrite IH by done.
  by apply refillPlayer_count.
Qed.

Lemma foldl_refillPlayer_count (order : list nat) (st : list player * list card) :
  NoDup order →
  length (foldl refillPlayer st order).2
    = length st.2 - (length st.2 `min` sum_list_with (missing st.1) order)
  ∧ sum_list_with (missing (foldl refillPlayer st order).1) order
    = sum_list_with (missing st.1) order
      - (length st.2 `min` sum_list_with (missing st.1) order).
Proof.
  intros Hnd. revert st. induction Hnd as [|i order Hi _ IH]; intros st.
  - simpl. split; lia.
  - cbn [foldl sum_list_with]. destruct (IH (refillPlayer st i)) as [-> ->].
    rewrite foldl_refillPlayer_other by done.
    destruct (refillPlayer_count st i) as (-> & -> & Hsame).
    rewrite (sum_list_with_same (missing (refillPlayer st i).1) (missing st.1)); [lia |].
    apply Forall_forall. intros j Hj. apply Hsame. by intros ->.
Qed.

Lemma allHands_length (ps : list player) :
  length (allHands ps) = sum_list (handSizes ps).
Proof.
  unfold allHands, handSizes. induction ps as [|p ps IH]; [done |].
  simpl. by rewrite length_app, IH.
Qed.

(** X27.  A refill takes from the deck exactly the cards that the hands
    below 8 are missing, or the whole deck if it holds fewer; the hands
    together grow by that number and what they still miss shrinks by it.
    So a deck that covers the need brings every hand to 8 or more. *)
Theorem drawToFill_count (s : GameState) :
  length (deck (drawToFill s))
    = length (deck s) - (length (deck s) `min` need (players s))
  ∧ sum_list (handSizes (players (drawToFill s)))
    = sum_list (handSizes (players s)) + (length (deck s) `min` need (players s))
  ∧ need (players (drawToFill s))
    = need (players s) - (length (deck s) `min` need (players s)).
Proof.
  assert (Hnd : NoDup (refillOrder (length (players s)) (attacker s))).
  { rewrite refillOrder_Permutation. apply NoDup_ListNoDup, List.seq_NoDup. }
  assert (Hsum : ∀ ps : list player, length ps = length (players s) →
            sum_list_with (missing ps) (refillOrder (length (players s)) (attacker s))
            = need ps).
  { intros ps Hl. rewrite refillOrder_Permutation, <- Hl. apply sum_missing_seq. }
  destruct (foldl_refillPlayer_count _ (players s, deck s) Hnd) as [Hd Hm].
  cbn [fst snd] in Hd, Hm. rewrite (Hsum (players s) eq_refl) in Hd, Hm.
  destruct (drawToFill_frame s) as (Hps & Hrest & Hl & _). injection Hrest as _ Ht _ _ _ _.
  unfold refillSpec in Hps.
  assert (Hp1 : players (drawToFill s)
                = (foldl refillPlayer (players s, deck s)
                     (refillOrder (length (players s)) (attacker s))).1)
    by by rewrite <- Hps.
  assert (Hp2 : deck (drawToFill s)
                = (foldl refillPlayer (players s, deck s)
                     (refillOrder (length (players s)) (attacker s))).2)
    by by rewrite <- Hps.
  rewrite <- Hp1 in Hm. rewrite <- Hp2 in Hd. rewrite (Hsum _ Hl) in Hm.
  split; [done |]. split; [| done].
  pose proof (drawToFill_cards s) as P. apply Permutation_length in P.
  unfold cardsInPlay in P. rewrite !length_app, !allHands_length, Ht in P. lia.
Qed.
